(** * Mobile 300 baud APRS encoder: a shallow embedding of [Main.py]

    The encoder builds an AX.25-style frame (callsign address fields,
    control and PID bytes, ASCII payload, CRC-16/X-25, flag bytes), turns
    its bytes into a differentially encoded bit sequence, synthesises a
    two-tone signal, normalises it and runs it through a one-pole filter.

    Python integers are modelled as [Z], byte arrays and bit sequences as
    [list Z], strings as lists of Unicode code points ([list Z]), raised
    exceptions as the [Raise] branch of [result].  Python floats are
    modelled by the real numbers they approximate (exact arithmetic, no
    rounding); [int] is truncation toward zero. *)

From Stdlib Require Import ZArith List Bool Lia.
From Stdlib Require Ascii String.
From Stdlib Require Import Reals Lra Psatz RNsatz.
Import ListNotations.

Local Open Scope Z_scope.

(** ** Exceptions *)

Inductive exn : Set :=
| ValueError
| UnicodeEncodeError
| OverflowError
| IndexError
| ZeroDivisionError.

Inductive result (A : Type) : Type :=
| Ok (a : A)
| Raise (e : exn).

Arguments Ok {A} a.
Arguments Raise {A} e.

Definition bind {A B : Type} (r : result A) (k : A -> result B) : result B :=
  match r with
  | Ok a => k a
  | Raise e => Raise e
  end.

Notation "x <- r ;; k" := (bind r (fun x => k))
  (at level 61, r at next level, right associativity).

Definition is_ok {A : Type} (r : result A) : bool :=
  match r with Ok _ => true | Raise _ => false end.

(** ** Constants *)

Definition SAMPLE_RATE : Z := 96000.
Definition BAUD_RATE : Z := 300.
Definition MARK_TONE : Z := 1800.
Definition SPACE_TONE : Z := 1600.
Definition DURATION_PER_BIT : Z := SAMPLE_RATE / BAUD_RATE.
Definition FLAG : Z := 0x7E.
Definition POLY : Z := 0x8408.
Definition PREAMBLE_LENGTH : nat := 32.

(** ** crc16_ccitt *)

(** One pass of the inner [for _ in range(8)] loop body: [crc & 1] is
    truthy when it is not zero. *)
Definition crc_shift (crc : Z) : Z :=
  if Z.land crc 1 =? 0 then Z.shiftr crc 1
  else Z.lxor (Z.shiftr crc 1) POLY.

(** The body of the outer loop: [crc ^= byte], then the eight inner passes. *)
Definition crc_byte (crc byte : Z) : Z :=
  Nat.iter 8 crc_shift (Z.lxor crc byte).

Definition crc16_ccitt (data : list Z) : Z :=
  Z.lxor (fold_left crc_byte data 0xFFFF) 0xFFFF.

(** The CRC-16/X-25 register machine as the specification words it: the
    register starts at 0xFFFF; a byte is XORed in and eight steps follow,
    each halving the register and XORing 0x8408 in when the bit shifted out
    was 1; the final register is XORed with 0xFFFF. *)
Module X25.

Definition step (reg : Z) : Z :=
  if Z.odd reg then Z.lxor (reg / 2) 0x8408 else reg / 2.

Fixpoint steps (n : nat) (reg : Z) : Z :=
  match n with
  | O => reg
  | S k => steps k (step reg)
  end.

Fixpoint register (reg : Z) (bytes : list Z) : Z :=
  match bytes with
  | [] => reg
  | b :: rest => register (steps 8 (Z.lxor reg b)) rest
  end.

Definition checksum (bytes : list Z) : Z :=
  Z.lxor (register 0xFFFF bytes) 0xFFFF.

End X25.

(** The ASCII bytes of "123456789", the check input of the CRC catalogue. *)
Definition check_input : list Z := [49; 50; 51; 52; 53; 54; 55; 56; 57].

(** ** Strings *)

(** A Python [str] is a sequence of code points. *)
Definition pystr : Type := list Z.

Definition is_ascii (c : Z) : bool := (0 <=? c) && (c <? 128).

Definition all_ascii (s : pystr) : bool := forallb is_ascii s.

(** The code points of a string literal. *)
Definition codes (s : String.string) : pystr :=
  map (fun a => Z.of_N (Ascii.N_of_ascii a)) (String.list_ascii_of_string s).

Definition in_byte (v : Z) : bool := (0 <=? v) && (v <? 256).

(** [bytearray(iterable)] and [bytearray.append] accept integers in
    [range(0, 256)] only and raise [ValueError] otherwise. *)
Definition byte_of (v : Z) : result Z :=
  if in_byte v then Ok v else Raise ValueError.

Fixpoint bytearray (vs : list Z) : result (list Z) :=
  match vs with
  | [] => Ok []
  | v :: rest =>
      b <- byte_of v ;;
      bs <- bytearray rest ;;
      Ok (b :: bs)
  end.

(** [s.encode('ascii')] *)
Definition encode_ascii (s : pystr) : result (list Z) :=
  if all_ascii s then Ok s else Raise UnicodeEncodeError.

(** [s.ljust(n)]: pad on the right with spaces up to [n] characters. *)
Definition ljust (n : nat) (s : pystr) : pystr :=
  s ++ repeat 32 (n - length s).

Section Frames.

(** Python's [str.upper] maps each character on its own through the
    Unicode case tables, which are not part of the repository: the
    mapping of the code points past ASCII is a parameter.  It returns a
    list since one character may become several (U+00DF becomes "SS"). *)
Variable unicode_upper : Z -> list Z.

Definition upper_char (c : Z) : list Z :=
  if (97 <=? c) && (c <=? 122) then [c - 32]
  else if is_ascii c then [c]
  else unicode_upper c.

Definition upper (s : pystr) : pystr := flat_map upper_char s.

(** ** encode_callsign *)

(** The characters [encode_callsign] shifts into address bytes. *)
Definition callsign_chars (callsign : pystr) : pystr :=
  upper (firstn 6 (ljust 6 callsign)).

(** Whether every one of those characters is ASCII, so that its code
    shifted left by one still fits a byte. *)
Definition callsign_ok (callsign : pystr) : bool :=
  all_ascii (callsign_chars callsign).

(** The bytes [encode_callsign] returns for SSID 0 when it returns. *)
Definition address_bytes (callsign : pystr) : list Z :=
  map (fun c => Z.shiftl c 1) (callsign_chars callsign) ++ [0x60].

Definition encode_callsign (callsign : pystr) (ssid : Z) : result (list Z) :=
  let callsign := callsign_chars callsign in
  encoded <- bytearray (map (fun c => Z.shiftl c 1) callsign) ;;
  last <- byte_of (Z.lor (Z.shiftl ssid 1) 0x60) ;;
  Ok (encoded ++ [last]).

(** ** ax25_frame *)

(** [for call in path: frame.extend(encode_callsign(call, 0))] *)
Fixpoint extend_path (frame : list Z) (path : list pystr) : result (list Z) :=
  match path with
  | [] => Ok frame
  | call :: rest =>
      a <- encode_callsign call 0 ;;
      extend_path (frame ++ a) rest
  end.

(** [frame[-1] |= 0x01] *)
Definition or_last (frame : list Z) (mask : Z) : result (list Z) :=
  match rev frame with
  | [] => Raise IndexError
  | b :: front =>
      b' <- byte_of (Z.lor b mask) ;;
      Ok (rev front ++ [b'])
  end.

(** [crc.to_bytes(2, 'little')] *)
Definition to_bytes_2_little (v : Z) : result (list Z) :=
  if (0 <=? v) && (v <? 65536)
  then Ok [Z.land v 0xFF; Z.shiftr v 8]
  else Raise OverflowError.

(** The address bytes of the frame, as they stand after the end marker
    is set and before the control byte is appended. *)
Definition address_field (source destination : pystr) (path : list pystr)
  : result (list Z) :=
  d <- encode_callsign destination 0 ;;
  s <- encode_callsign source 0 ;;
  frame <- extend_path (d ++ s) path ;;
  or_last frame 0x01.

(** The frame from its first address byte to the end of the checksum. *)
Definition ax25_body (source destination : pystr) (path : list pystr)
           (info : pystr) : result (list Z) :=
  frame <- address_field source destination path ;;
  let frame := frame ++ [0x03; 0xF0] in
  payload <- encode_ascii info ;;
  let frame := frame ++ payload in
  let crc := crc16_ccitt frame in
  fcs <- to_bytes_2_little crc ;;
  Ok (frame ++ fcs).

Definition ax25_frame (source destination : pystr) (path : list pystr)
           (info : pystr) : result (list Z) :=
  frame <- ax25_body source destination path info ;;
  Ok (repeat FLAG PREAMBLE_LENGTH ++ frame ++ [FLAG]).

End Frames.

(** Inputs used to exercise the frame builder: the call of [play_aprs],
    and callsigns holding U+00E9 and U+00D6. *)
Module Examples.
Import String.
Local Open Scope string_scope.

Definition source : pystr := codes "YourCall".
Definition destination : pystr := codes "IOSPY1".
Definition path : list pystr := [codes "WIDE1"; codes "WIDE2"].
Definition info : pystr := codes "@031344z3351.00N/08423.00W(KO4GOF Testing".

(** "ABCDEF" followed by U+00E9, a seventh character past ASCII. *)
Definition long_call : pystr := (codes "ABCDEF" ++ [233])%list.

(** "KO4G", U+00D6, "F": a character past ASCII among the first six. *)
Definition umlaut_call : pystr :=
  (codes "KO4G" ++ [214] ++ codes "F")%list.

(** A callsign in lower case. *)
Definition lower_call : pystr := codes "ko4gof".

(** An upper-casing table that leaves every code point past ASCII as
    it is (as Unicode does for U+00D6, already upper case). *)
Definition keep_upper (c : Z) : list Z := [c].
End Examples.

(** ** generate_bitstream *)

(** The body of the inner loop over [i in range(8)]; the state is the bit
    list so far and [prev_bit]. *)
Definition bit_body (byte : Z) (st : list Z * Z) (i : nat) : list Z * Z :=
  let '(bitstream, prev_bit) := st in
  let bit := Z.land (Z.shiftr byte (Z.of_nat i)) 1 in
  let prev_bit := if bit =? 0 then Z.lxor prev_bit 1 else prev_bit in
  (bitstream ++ [prev_bit], prev_bit).

Definition byte_body (st : list Z * Z) (byte : Z) : list Z * Z :=
  fold_left (bit_body byte) (seq 0 8) st.

Definition preamble_bits : list Z :=
  Nat.iter PREAMBLE_LENGTH (fun bitstream => bitstream ++ [0; 1]) [].

Definition generate_bitstream (packet : list Z) : list Z :=
  let bitstream := preamble_bits in
  let '(bitstream, _) := fold_left byte_body packet (bitstream, 1) in
  bitstream ++ [0; 1].

(** The differential rule as the specification words it: a pure step from
    the running state and an input bit to the new state and the bit
    emitted, folded over the bits of the packet, least significant first. *)
Module Nrzi.

Definition step (state bit : Z) : Z * Z :=
  let state' := if bit =? 0 then 1 - state else state in
  (state', state').

Fixpoint run (state : Z) (bits : list Z) : list Z :=
  match bits with
  | [] => []
  | b :: rest =>
      let '(state', out) := step state b in
      out :: run state' rest
  end.

Definition bits_of_byte (byte : Z) : list Z :=
  map (fun i => if Z.testbit byte (Z.of_nat i) then 1 else 0) (seq 0 8).

Definition bits_of (packet : list Z) : list Z :=
  flat_map bits_of_byte packet.

Definition encode (packet : list Z) : list Z := run 1 (bits_of packet).

End Nrzi.

Definition is_bit (b : Z) : Prop := b = 0 \/ b = 1.

(** The state the differential encoder is left in after [bits]. *)
Fixpoint nrzi_state (state : Z) (bits : list Z) : Z :=
  match bits with
  | [] => state
  | b :: rest => nrzi_state (fst (Nrzi.step state b)) rest
  end.

(** ** Floating-point values, as real numbers *)

Local Open Scope R_scope.

(** [int(x)] on a float: truncation toward zero. *)
Definition int (x : R) : Z :=
  if Rle_dec 0 x then Zfloor x else Zceil x.

(** [x % m] on floats: the remainder takes the sign of the divisor, that
    is [x - m * floor(x / m)]. *)
Definition fmod (x m : R) : R := x - IZR (Zfloor (x / m)) * m.

(** [x / y] on floats raises [ZeroDivisionError] when [y] is zero. *)
Definition fdiv (x y : R) : result R :=
  if Req_dec_T y 0 then Raise ZeroDivisionError else Ok (x / y).

(** [range(n)] *)
Definition range (n : Z) : list Z := map Z.of_nat (seq 0 (Z.to_nat n)).

(** Rounding to the nearest integer, a tie going to the even one: the
    rule of float arithmetic and of the conversion of a float to a fixed
    number of decimals. *)
Definition round_half_even (x : R) : Z :=
  let f := Zfloor x in
  let d := x - IZR f in
  if Rlt_dec d (1 / 2) then f
  else if Rlt_dec (1 / 2) d then (f + 1)%Z
  else if Z.even f then f else (f + 1)%Z.

(** The exponent of the binade of a float: [2 ^ e <= |x| < 2 ^ (e + 1)],
    and -1022 for the subnormal numbers below. *)
Definition float_exponent (x : R) : Z :=
  Z.max (-1022) (Zfloor (ln (Rabs x) / ln 2)).

(** The float nearest to a real number: 53 significant bits, a tie going
    to the even one.  A float operation returns the rounded exact result.
    Overflow past [2 ^ 1024] is left out: no result rounded below comes
    near it. *)
Definition round_float (x : R) : R :=
  let scale := powerRZ 2 (52 - float_exponent x) in
  IZR (round_half_even (x * scale)) / scale.

(** ** generate_continuous_tone *)

Definition tone_sample (frequency phase amplitude : R) (t : Z) : Z :=
  int (amplitude * 32767
       * sin (2 * PI * frequency * IZR t / IZR SAMPLE_RATE + phase)).

Definition generate_continuous_tone
           (frequency : R) (samples : Z) (phase amplitude : R) : list Z * R :=
  let tone := map (tone_sample frequency phase amplitude) (range samples) in
  let phase :=
    phase + fmod (2 * PI * frequency * IZR samples / IZR SAMPLE_RATE) (2 * PI) in
  (tone, phase).

(** ** highpass_filter *)

Definition filter_alpha (cutoff : R) : result R :=
  RC <- fdiv 1 (cutoff * 2 * PI) ;;
  fdiv RC (RC + 1 / IZR SAMPLE_RATE).

(** The loop body; the state is [filtered_data] and [prev_sample].
    [last l d] is [l[-1] if l else d]. *)
Definition filter_body (alpha : R) (st : list Z * R) (sample : R)
  : list Z * R :=
  let '(filtered_data, prev_sample) := st in
  let filtered_sample :=
    alpha * (prev_sample + sample - last (map IZR filtered_data) sample) in
  (filtered_data ++ [int filtered_sample], sample).

Definition highpass_filter (data : list R) (cutoff : R) : result (list Z) :=
  alpha <- filter_alpha cutoff ;;
  Ok (fst (fold_left (filter_body alpha) data ([], 0))).

(** ** afsk_encode *)

(** The loop body over the bit stream; the state is [audio] and [phase].
    ([current_tone] is assigned and never read.) *)
Definition bit_tone (st : list Z * R) (bit : Z) : list Z * R :=
  let '(audio, phase) := st in
  let '(tone, phase) :=
    if (bit =? 1)%Z
    then generate_continuous_tone (IZR MARK_TONE) DURATION_PER_BIT phase 0.02
    else generate_continuous_tone (IZR SPACE_TONE) DURATION_PER_BIT phase 0.02 in
  (audio ++ tone, phase).

Definition synthesize (bitstream : list Z) : list Z * R :=
  fold_left bit_tone bitstream ([], 0).

(** [max(abs(sample) for sample in audio)]: [max] of an empty sequence
    raises [ValueError]. *)
Definition max_abs (audio : list Z) : result Z :=
  match audio with
  | [] => Raise ValueError
  | sample :: rest =>
      Ok (fold_left (fun m s => Z.max m (Z.abs s)) rest (Z.abs sample))
  end.

(** The normalisation step of [afsk_encode], its quotient and product
    taken exactly: the form the range analysis works on. *)
Definition normalize (audio : list Z) : result (list Z) :=
  max_amplitude <- max_abs audio ;;
  if (max_amplitude >? 0)%Z
  then Ok (map (fun sample => int (IZR sample * (32767 / IZR max_amplitude)))
               audio)
  else Ok audio.

(** [int(sample * (32767 / max_amplitude))] as the floats compute it: the
    quotient of the two ints is rounded, the sample is converted (exactly,
    below [2 ^ 53]), the product is rounded, then truncated. *)
Definition rescale_float (max_amplitude sample : Z) : Z :=
  int (round_float (IZR sample * round_float (32767 / IZR max_amplitude))).

(** The normalisation step with the rounding of each float operation. *)
Definition normalize_float (audio : list Z) : result (list Z) :=
  max_amplitude <- max_abs audio ;;
  if (max_amplitude >? 0)%Z
  then Ok (map (rescale_float max_amplitude) audio)
  else Ok audio.

Definition afsk_encode (packet : list Z) : result (list Z) :=
  let bitstream := generate_bitstream packet in
  let audio := fst (synthesize bitstream) in
  audio <- normalize audio ;;
  highpass_filter (map IZR audio) 350.

(** [m] is the largest absolute value among the samples of [audio]. *)
Definition is_max_abs (m : Z) (audio : list Z) : Prop :=
  (exists s, In s audio /\ Z.abs s = m)
  /\ (forall s, In s audio -> (Z.abs s <= m)%Z).

(** A sample rescaled by 32767 / [m], truncated. *)
Definition rescale (m sample : Z) : Z :=
  int (IZR sample * (32767 / IZR m)).

(** ** save_to_wav *)

(** [int(sample).to_bytes(2, byteorder='little', signed=True)] *)
Definition to_bytes_2_little_signed (v : Z) : result (list Z) :=
  if ((-32768 <=? v) && (v <=? 32767))%Z
  then Ok [Z.land v 0xFF; Z.land (Z.shiftr v 8) 0xFF]
  else Raise OverflowError.

(** The loop that fills [wav_data]. *)
Fixpoint sample_bytes (audio : list Z) : result (list Z) :=
  match audio with
  | [] => Ok []
  | sample :: rest =>
      b <- to_bytes_2_little_signed sample ;;
      bs <- sample_bytes rest ;;
      Ok (b ++ bs)
  end.

(** What [save_to_wav] leaves in the file it opens: the header fields it
    sets and the frame data it writes. *)
Record wav_file : Type := {
  nchannels : Z;
  sampwidth : Z;
  framerate : Z;
  frames : list Z
}.

Definition save_to_wav (audio : list Z) : result wav_file :=
  wav_data <- sample_bytes audio ;;
  Ok {| nchannels := 1; sampwidth := 2; framerate := SAMPLE_RATE;
        frames := wav_data |}.

Local Close Scope R_scope.

(** ** The synthesized signal and the filter, for the range analysis *)

Local Open Scope R_scope.

(** The angle a tone of frequency [f] advances from one sample to the next. *)
Definition tone_omega (f : Z) : R := 2 * PI * IZR f / IZR SAMPLE_RATE.

Definition is_tone (w : R) : Prop :=
  w = tone_omega SPACE_TONE \/ w = tone_omega MARK_TONE.

(** The argument of [sin] in [generate_continuous_tone] at sample [t]. *)
Definition angle (f : Z) (phase : R) (t : Z) : R :=
  2 * PI * IZR f * IZR t / IZR SAMPLE_RATE + phase.

(** The sample [generate_continuous_tone] computes at that angle with the
    amplitude 0.02 [afsk_encode] passes. *)
Definition raw_sample (theta : R) : Z := int (0.02 * 32767 * sin theta).

(** The phase [generate_continuous_tone] returns after one bit. *)
Definition next_phase (f : Z) (phase : R) : R :=
  phase + fmod (2 * PI * IZR f * IZR DURATION_PER_BIT / IZR SAMPLE_RATE) (2 * PI).

Definition tone_of_bit (bit : Z) : Z :=
  if (bit =? 1)%Z then MARK_TONE else SPACE_TONE.

(** The samples of a bit stream, each as the pair of the angle step that
    leads to it and its angle.  The step into the first sample of a bit
    is that of the bit before. *)
Fixpoint bit_steps (w_prev phase : R) (bits : list Z) : list (R * R) :=
  match bits with
  | [] => []
  | bit :: rest =>
      let f := tone_of_bit bit in
      (w_prev, angle f phase 0)
        :: map (fun t => (tone_omega f, angle f phase t))
               (map Z.of_nat (seq 1 319))
        ++ bit_steps (tone_omega f) (next_phase f phase) rest
  end.

(** A run of samples in which every angle is the one before advanced by
    a tone's step, up to whole turns. *)
Inductive chained : R -> list (R * R) -> Prop :=
| chained_nil (th : R) : chained th []
| chained_cons (th w th' : R) (rest : list (R * R)) :
    is_tone w ->
    sin th = sin (th' - w) -> cos th = cos (th' - w) ->
    chained th' rest ->
    chained th ((w, th') :: rest).

(** The coefficient [highpass_filter] computes for the cutoff 350. *)
Definition default_alpha : R :=
  1 / (350 * 2 * PI) / (1 / (350 * 2 * PI) + 1 / IZR SAMPLE_RATE).

(** The response of the recurrence [y' + alpha * y = alpha * (x' + x)] to
    a sinusoid that advances by [w] per sample:
    [coef_sin * sin th + coef_cos * cos th]. *)
Definition gain_den (alpha c : R) : R := 1 + alpha * alpha + 2 * alpha * c.

Definition coef_sin (alpha w : R) : R :=
  alpha * (1 + alpha) * (1 + cos w) / gain_den alpha (cos w).

Definition coef_cos (alpha w : R) : R :=
  - (alpha * (1 - alpha) * sin w) / gain_den alpha (cos w).

Definition steady (alpha w th : R) : R :=
  coef_sin alpha w * sin th + coef_cos alpha w * cos th.

(** The amplitude of the normalised sinusoid, the bound on what the two
    truncations take from a normalised sample, and the bound kept on the
    distance between the filter output and the steady response. *)
Definition peak : R := 0.02 * 32767 * (32767 / 655).
Definition noise : R := 32767 / 655 + 1.
Definition slack : R := 205.

(** A normalised sample. *)
Definition norm_sample (theta : R) : Z := rescale 655 (raw_sample theta).

(** The invariant of the filter loop after the sample at angle [th],
    reached by the step [w], with output [y]. *)
Definition tracking (alpha w th : R) (y : Z) : Prop :=
  Rabs (IZR y - peak * steady alpha w th
        - alpha * (IZR (norm_sample th) - peak * sin th)) <= slack.

Definition in_int16 (s : Z) : Prop := (Z.abs s <= 32767)%Z.

Local Close Scope R_scope.

(** ** format_coordinates *)

(** The characters of a decimal numeral. *)
Fixpoint uint_codes (d : Decimal.uint) : pystr :=
  match d with
  | Decimal.Nil => []
  | Decimal.D0 r => 48 :: uint_codes r
  | Decimal.D1 r => 49 :: uint_codes r
  | Decimal.D2 r => 50 :: uint_codes r
  | Decimal.D3 r => 51 :: uint_codes r
  | Decimal.D4 r => 52 :: uint_codes r
  | Decimal.D5 r => 53 :: uint_codes r
  | Decimal.D6 r => 54 :: uint_codes r
  | Decimal.D7 r => 55 :: uint_codes r
  | Decimal.D8 r => 56 :: uint_codes r
  | Decimal.D9 r => 57 :: uint_codes r
  end.

(** The decimal digits of [abs(n)], without sign. *)
Definition digits (n : Z) : pystr :=
  match Z.to_int n with
  | Decimal.Pos d => uint_codes d
  | Decimal.Neg d => uint_codes d
  end.

(** The zero flag of a format specification: the text is filled to
    [width] with "0" between the sign and the digits. *)
Definition zero_pad (width : nat) (sign body : pystr) : pystr :=
  sign ++ repeat 48 (width - length sign - length body) ++ body.

(** [f"{n:0w}"] on an int, [w] the width. *)
Definition format_int (width : nat) (n : Z) : pystr :=
  zero_pad width (if n <? 0 then [45] else []) (digits n).

(** The text of [h] hundredths, [h] not negative: the whole part, a
    point and two decimals. *)
Definition hundredths_text (h : Z) : pystr :=
  digits (h / 100) ++ [46; 48 + (h mod 100) / 10; 48 + h mod 10].

Local Open Scope R_scope.

(** [f"{x:0w.2f}"] on a float: the value of the float, rounded to
    hundredths. *)
Definition format_fixed2 (width : nat) (x : R) : pystr :=
  zero_pad width (if Rlt_dec x 0 then [45%Z] else [])
           (hundredths_text (round_half_even (Rabs x * 100))).

(** [(abs(x) - deg) * 60]: the difference and the product are float
    operations, each rounded. *)
Definition minutes (x : R) (deg : Z) : R :=
  round_float (round_float (Rabs x - IZR deg) * 60).

(** The coordinates are floats, taken as the real numbers they are.  The
    hemisphere letters are "N" 78, "S" 83, "E" 69 and "W" 87. *)
Definition format_coordinates (latitude longitude : R) (symbol : pystr)
  : pystr :=
  let lat_deg := int (Rabs latitude) in
  let lat_min := minutes latitude lat_deg in
  let lat_hemisphere := if Rle_dec 0 latitude then [78%Z] else [83%Z] in
  let lat_str :=
    format_int 2 lat_deg ++ format_fixed2 5 lat_min ++ lat_hemisphere in
  let lon_deg := int (Rabs longitude) in
  let lon_min := minutes longitude lon_deg in
  let lon_hemisphere := if Rle_dec 0 longitude then [69%Z] else [87%Z] in
  let lon_str :=
    format_int 3 lon_deg ++ format_fixed2 5 lon_min ++ lon_hemisphere in
  lat_str ++ symbol ++ lon_str.

Local Close Scope R_scope.

(** ** play_aprs *)

Module Report.
Import String.
Local Open Scope string_scope.

(** The text [play_aprs] puts after the position. *)
Definition comment : pystr :=
  codes "(KO4GOF Testing 300 baud app on pythonista 2".
End Report.

Section App.

Variable unicode_upper : Z -> list Z.

(** [play_aprs] from the coordinates the location service gives and the
    timestamp formatted from the clock to the file it writes.  The name
    of the file and its playback belong to the platform and are left
    out. *)
Definition play_aprs (latitude longitude : R) (timestamp : pystr)
  : result wav_file :=
  let position_report := format_coordinates latitude longitude [47] in
  let info := [64] ++ timestamp ++ position_report ++ Report.comment in
  packet <- ax25_frame unicode_upper Examples.source Examples.destination
                       Examples.path info ;;
  audio_signal <- afsk_encode packet ;;
  save_to_wav audio_signal.

End App.

(** ** Devices for the further properties *)

(** [P] holds on the [n] integers from [z] on. *)
Fixpoint holds_from (P : Z -> bool) (n : nat) (z : Z) : bool :=
  match n with
  | O => true
  | S k => P z && holds_from P k (z + 1)
  end.

(** Equality of two lists of integers, as a boolean. *)
Fixpoint list_eqb (a b : list Z) : bool :=
  match a, b with
  | [], [] => true
  | x :: a', y :: b' => (x =? y) && list_eqb a' b'
  | _, _ => false
  end.

(** The number whose bits, least significant first, are [bits]. *)
Definition bits_value (bits : list Z) : Z :=
  fold_right (fun b acc => b + 2 * acc) 0 bits.

(** ** Tactics *)

(** A product of two unknowns, each within known bounds: the factors are
    turned into variables first, so that [nra] multiplies the bounds. *)
Ltac bound_product := intros; nra.

(** * Properties *)

(** ** Checksum *)

Lemma crc_shift_step (crc : Z) : crc_shift crc = X25.step crc.
Proof.
  unfold crc_shift, X25.step, POLY.
  rewrite Z.shiftr_div_pow2 by lia.
  change (2 ^ 1) with 2.
  replace (Z.land crc 1) with (crc mod 2)
    by (symmetry; apply (Z.land_ones crc 1); lia).
  rewrite Zodd_mod.
  destruct (Z.eqb_spec (crc mod 2) 0) as [E | E].
  - rewrite E. reflexivity.
  - assert (crc mod 2 = 1) as -> by (pose proof (Z.mod_pos_bound crc 2); lia).
    reflexivity.
Qed.

Lemma crc_iter_steps (n : nat) (crc : Z) :
  Nat.iter n crc_shift crc = X25.steps n crc.
Proof.
  revert crc. induction n as [| n IH]; intro crc.
  - reflexivity.
  - rewrite Nat.iter_succ_r. cbn [X25.steps].
    rewrite crc_shift_step. apply IH.
Qed.

Lemma crc_fold_register (data : list Z) (reg : Z) :
  fold_left crc_byte data reg = X25.register reg data.
Proof.
  revert reg. induction data as [| b data IH]; intro reg.
  - reflexivity.
  - cbn [fold_left X25.register]. rewrite IH. unfold crc_byte.
    rewrite crc_iter_steps. reflexivity.
Qed.

(** C2: on every byte sequence [crc16_ccitt] is the CRC-16/X-25 register
    machine (initial register 0xFFFF, byte XORed in, eight shift steps
    with polynomial 0x8408, final XOR 0xFFFF), and on the ASCII bytes of
    "123456789" it returns the published check value 0x906E. *)
Theorem crc16_ccitt_is_x25 :
  (forall data : list Z, crc16_ccitt data = X25.checksum data)
  /\ crc16_ccitt check_input = 0x906E.
Proof.
  split.
  - intro data. unfold crc16_ccitt, X25.checksum.
    rewrite crc_fold_register. reflexivity.
  - vm_compute. reflexivity.
Qed.

(** ** Bit stream *)

Lemma low_bit_testbit (byte : Z) (i : nat) :
  Z.land (Z.shiftr byte (Z.of_nat i)) 1
  = if Z.testbit byte (Z.of_nat i) then 1 else 0.
Proof.
  replace (Z.land (Z.shiftr byte (Z.of_nat i)) 1)
    with (Z.shiftr byte (Z.of_nat i) mod 2)
    by (symmetry; apply (Z.land_ones _ 1); lia).
  rewrite <- Z.bit0_mod, Z.shiftr_spec by lia.
  rewrite Z.add_0_l. destruct (Z.testbit byte (Z.of_nat i)); reflexivity.
Qed.

Lemma nrzi_step_bit (state bit : Z) :
  is_bit state -> is_bit (fst (Nrzi.step state bit)).
Proof.
  unfold Nrzi.step, is_bit. cbn [fst].
  destruct (bit =? 0); lia.
Qed.

Lemma flip_is_xor (state : Z) : is_bit state -> Z.lxor state 1 = 1 - state.
Proof. intros [-> | ->]; reflexivity. Qed.

Lemma nrzi_state_bit (bits : list Z) (state : Z) :
  is_bit state -> is_bit (nrzi_state state bits).
Proof.
  revert state. induction bits as [| b bits IH]; intros state Hs.
  - exact Hs.
  - cbn [nrzi_state]. apply IH, nrzi_step_bit, Hs.
Qed.

Lemma nrzi_run_app (xs ys : list Z) (state : Z) :
  Nrzi.run state (xs ++ ys)
  = Nrzi.run state xs ++ Nrzi.run (nrzi_state state xs) ys.
Proof.
  revert state. induction xs as [| x xs IH]; intro state.
  - reflexivity.
  - cbn [app Nrzi.run nrzi_state]. unfold Nrzi.step at 1. cbn [fst].
    rewrite IH. reflexivity.
Qed.

Lemma nrzi_state_app (xs ys : list Z) (state : Z) :
  nrzi_state (nrzi_state state xs) ys = nrzi_state state (xs ++ ys).
Proof.
  revert state. induction xs as [| x xs IH]; intro state.
  - reflexivity.
  - cbn [app nrzi_state]. apply IH.
Qed.

Lemma nrzi_run_length (bits : list Z) (state : Z) :
  length (Nrzi.run state bits) = length bits.
Proof.
  revert state. induction bits as [| b bits IH]; intro state.
  - reflexivity.
  - cbn [Nrzi.run]. unfold Nrzi.step. cbn [length]. now rewrite IH.
Qed.

Lemma bit_body_fold (byte : Z) (idx : list nat) (bitstream : list Z) (prev : Z) :
  is_bit prev ->
  let bits := map (fun i => if Z.testbit byte (Z.of_nat i) then 1 else 0) idx in
  fold_left (bit_body byte) idx (bitstream, prev)
  = (bitstream ++ Nrzi.run prev bits, nrzi_state prev bits).
Proof.
  revert bitstream prev.
  induction idx as [| i idx IH]; intros bitstream prev Hp; cbn zeta.
  - cbn. now rewrite app_nil_r.
  - cbn [fold_left map Nrzi.run nrzi_state]. unfold bit_body at 2.
    rewrite low_bit_testbit. unfold Nrzi.step. cbn [fst].
    rewrite flip_is_xor by exact Hp.
    set (prev' := if (if Z.testbit byte (Z.of_nat i) then 1 else 0) =? 0
                  then 1 - prev else prev).
    assert (is_bit prev') as Hp'.
    { subst prev'. unfold is_bit in *.
      destruct (Z.testbit byte (Z.of_nat i));
        [change (1 =? 0) with false | change (0 =? 0) with true];
        cbv iota; lia. }
    cbn zeta in IH. rewrite (IH _ _ Hp'), <- app_assoc. reflexivity.
Qed.

Lemma byte_body_fold (packet : list Z) (bitstream : list Z) (prev : Z) :
  is_bit prev ->
  fold_left byte_body packet (bitstream, prev)
  = (bitstream ++ Nrzi.run prev (Nrzi.bits_of packet),
     nrzi_state prev (Nrzi.bits_of packet)).
Proof.
  revert bitstream prev.
  induction packet as [| byte packet IH]; intros bitstream prev Hp.
  - cbn. now rewrite app_nil_r.
  - cbn [fold_left]. unfold byte_body at 2.
    rewrite (bit_body_fold byte (seq 0 8) bitstream prev Hp).
    fold (Nrzi.bits_of_byte byte).
    rewrite IH by (apply nrzi_state_bit, Hp).
    unfold Nrzi.bits_of. cbn [flat_map]. fold (Nrzi.bits_of packet).
    rewrite nrzi_run_app, <- app_assoc.
    now rewrite nrzi_state_app.
Qed.

Lemma bits_of_length (packet : list Z) :
  length (Nrzi.bits_of packet) = (8 * length packet)%nat.
Proof.
  unfold Nrzi.bits_of.
  induction packet as [| byte packet IH].
  - reflexivity.
  - cbn [flat_map]. rewrite length_app, IH. cbn. lia.
Qed.

Lemma preamble_bits_repeat :
  preamble_bits = concat (repeat [0; 1] PREAMBLE_LENGTH).
Proof. reflexivity. Qed.

Lemma generate_bitstream_layout (packet : list Z) :
  generate_bitstream packet
  = preamble_bits ++ Nrzi.encode packet ++ [0; 1].
Proof.
  unfold generate_bitstream.
  rewrite byte_body_fold by (right; reflexivity).
  unfold Nrzi.encode. now rewrite <- app_assoc.
Qed.

(** C4: the bit stream is the 64 sync bits, then the packet's bits taken
    least significant first and passed through the differential step
    (state 1 at the start, a 0 bit flips the state, a 1 bit keeps it, the
    state after the step is emitted), then the two closing bits; the byte
    portion of the output is that fold. *)
Theorem generate_bitstream_differential (packet : list Z) :
  generate_bitstream packet
  = concat (repeat [0; 1] PREAMBLE_LENGTH) ++ Nrzi.encode packet ++ [0; 1]
  /\ firstn (8 * length packet) (skipn (2 * PREAMBLE_LENGTH)
                                      (generate_bitstream packet))
     = Nrzi.run 1 (Nrzi.bits_of packet).
Proof.
  rewrite generate_bitstream_layout, preamble_bits_repeat. split.
  - reflexivity.
  - change (skipn (2 * PREAMBLE_LENGTH)
                  (concat (repeat [0; 1] PREAMBLE_LENGTH)
                   ++ Nrzi.encode packet ++ [0; 1]))
      with (Nrzi.encode packet ++ [0; 1]).
    unfold Nrzi.encode.
    rewrite firstn_app, nrzi_run_length, bits_of_length, Nat.sub_diag.
    cbn [firstn]. rewrite app_nil_r.
    apply firstn_all2. rewrite nrzi_run_length, bits_of_length. lia.
Qed.

Lemma bitstream_length (packet : list Z) :
  length (generate_bitstream packet) = (66 + 8 * length packet)%nat.
Proof.
  rewrite generate_bitstream_layout, !length_app.
  unfold Nrzi.encode. rewrite nrzi_run_length, bits_of_length.
  change (length preamble_bits) with 64%nat. cbn [length]. lia.
Qed.

(** C5: the bit stream of a packet [p] has [2 * PREAMBLE_LENGTH + 8 * len(p)
    + 2] bits, that is [66 + 8 * len(p)]; this holds for every packet, the
    non-empty ones among them. *)
Theorem generate_bitstream_length (packet : list Z) :
  length (generate_bitstream packet)
  = (2 * PREAMBLE_LENGTH + 8 * length packet + 2)%nat
  /\ length (generate_bitstream packet) = (66 + 8 * length packet)%nat.
Proof.
  rewrite bitstream_length. change PREAMBLE_LENGTH with 32%nat.
  split; [lia | reflexivity].
Qed.

(** ** Frames *)

Lemma lxor_bound (n a b : Z) :
  0 <= n -> 0 <= a < 2 ^ n -> 0 <= b < 2 ^ n -> 0 <= Z.lxor a b < 2 ^ n.
Proof.
  intros Hn Ha Hb.
  assert (0 <= Z.lxor a b) as Hx by (apply Z.lxor_nonneg; lia).
  split; [exact Hx |].
  destruct (Z.eq_dec (Z.lxor a b) 0) as [-> | Hne].
  - apply Z.pow_pos_nonneg; lia.
  - assert (0 < n) as Hpos.
    { destruct (Z.eq_dec n 0) as [-> | ?]; [| lia].
      change (2 ^ 0) with 1 in *.
      assert (a = 0) as -> by lia. assert (b = 0) as -> by lia.
      now contradiction Hne. }
    apply Z.log2_lt_pow2; [lia |].
    eapply Z.le_lt_trans; [apply Z.log2_lxor; lia |].
    apply Z.max_lub_lt.
    + destruct (Z.eq_dec a 0) as [-> | ?]; [cbn; lia |].
      apply Z.log2_lt_pow2; lia.
    + destruct (Z.eq_dec b 0) as [-> | ?]; [cbn; lia |].
      apply Z.log2_lt_pow2; lia.
Qed.

Lemma lor_bound (n a b : Z) :
  0 <= n -> 0 <= a < 2 ^ n -> 0 <= b < 2 ^ n -> 0 <= Z.lor a b < 2 ^ n.
Proof.
  intros Hn Ha Hb.
  assert (0 <= Z.lor a b) as Hx by (apply Z.lor_nonneg; lia).
  split; [exact Hx |].
  destruct (Z.eq_dec (Z.lor a b) 0) as [-> | Hne].
  - apply Z.pow_pos_nonneg; lia.
  - assert (0 < n) as Hpos.
    { destruct (Z.eq_dec n 0) as [-> | ?]; [| lia].
      change (2 ^ 0) with 1 in *.
      assert (a = 0) as -> by lia. assert (b = 0) as -> by lia.
      now contradiction Hne. }
    apply Z.log2_lt_pow2; [lia |].
    rewrite Z.log2_lor by lia.
    apply Z.max_lub_lt.
    + destruct (Z.eq_dec a 0) as [-> | ?]; [cbn; lia |].
      apply Z.log2_lt_pow2; lia.
    + destruct (Z.eq_dec b 0) as [-> | ?]; [cbn; lia |].
      apply Z.log2_lt_pow2; lia.
Qed.

Lemma in_byte_iff (v : Z) : in_byte v = true <-> 0 <= v < 256.
Proof. unfold in_byte. rewrite andb_true_iff, Z.leb_le, Z.ltb_lt. tauto. Qed.

Lemma crc_shift_range (crc : Z) :
  0 <= crc < 65536 -> 0 <= crc_shift crc < 65536.
Proof.
  intro H. unfold crc_shift, POLY.
  assert (0 <= Z.shiftr crc 1 < 32768) as Hs.
  { rewrite Z.shiftr_div_pow2 by lia. change (2 ^ 1) with 2.
    split; [apply Z.div_pos; lia | apply Z.div_lt_upper_bound; lia]. }
  destruct (Z.land crc 1 =? 0); [lia |].
  apply (lxor_bound 16); lia.
Qed.

Lemma crc_byte_range (crc byte : Z) :
  0 <= crc < 65536 -> 0 <= byte < 256 -> 0 <= crc_byte crc byte < 65536.
Proof.
  intros Hc Hb. unfold crc_byte.
  assert (0 <= Z.lxor crc byte < 65536) as H by (apply (lxor_bound 16); lia).
  revert H. generalize (Z.lxor crc byte) as reg. intros reg H.
  do 8 (rewrite Nat.iter_succ; apply crc_shift_range). exact H.
Qed.

Lemma crc16_ccitt_range (data : list Z) :
  forallb in_byte data = true -> 0 <= crc16_ccitt data < 65536.
Proof.
  intro Hd. unfold crc16_ccitt.
  apply (lxor_bound 16); [lia | | lia].
  assert (0 <= 0xFFFF < 65536) as H by lia.
  revert H Hd. generalize 0xFFFF as reg.
  induction data as [| b data IH]; intros reg Hr Hd.
  - exact Hr.
  - cbn [forallb] in Hd. apply andb_true_iff in Hd as [Hb Hd].
    cbn [fold_left]. apply IH; [| exact Hd].
    apply crc_byte_range; [exact Hr | now apply in_byte_iff].
Qed.

Lemma forallb_map {A B : Type} (f : B -> bool) (g : A -> B) (l : list A) :
  forallb f (map g l) = forallb (fun x => f (g x)) l.
Proof. induction l as [| x l IH]; cbn; [reflexivity | now rewrite IH]. Qed.

Lemma forallb_ext {A : Type} (f g : A -> bool) (l : list A) :
  (forall x, f x = g x) -> forallb f l = forallb g l.
Proof.
  intro H. induction l as [| x l IH]; cbn; [reflexivity | now rewrite H, IH].
Qed.

Lemma byte_of_spec (v : Z) :
  byte_of v = if in_byte v then Ok v else Raise ValueError.
Proof. reflexivity. Qed.

Lemma bytearray_spec (vs : list Z) :
  bytearray vs = if forallb in_byte vs then Ok vs else Raise ValueError.
Proof.
  induction vs as [| v vs IH].
  - reflexivity.
  - cbn [bytearray forallb]. rewrite byte_of_spec, IH.
    destruct (in_byte v), (forallb in_byte vs); reflexivity.
Qed.

Lemma shifted_in_byte (c : Z) : in_byte (Z.shiftl c 1) = is_ascii c.
Proof.
  unfold in_byte, is_ascii. rewrite Z.shiftl_mul_pow2 by lia.
  change (2 ^ 1) with 2.
  apply eq_true_iff_eq.
  rewrite !andb_true_iff, !Z.leb_le, !Z.ltb_lt. lia.
Qed.

Lemma shifted_even (c : Z) : Z.testbit (Z.shiftl c 1) 0 = false.
Proof. apply Z.shiftl_spec_low. lia. Qed.

Lemma is_ascii_in_byte (c : Z) : is_ascii c = true -> in_byte c = true.
Proof.
  unfold is_ascii. rewrite in_byte_iff, andb_true_iff, Z.leb_le, Z.ltb_lt. lia.
Qed.

Section FrameProperties.

Variable uu : Z -> list Z.

Lemma encode_callsign_spec (callsign : pystr) :
  encode_callsign uu callsign 0
  = if callsign_ok uu callsign then Ok (address_bytes uu callsign)
    else Raise ValueError.
Proof.
  unfold encode_callsign, callsign_ok, address_bytes, all_ascii.
  rewrite bytearray_spec, forallb_map.
  rewrite (forallb_ext _ is_ascii _ shifted_in_byte).
  destruct (forallb is_ascii (callsign_chars uu callsign)); reflexivity.
Qed.

Lemma extend_path_spec (path : list pystr) (frame : list Z) :
  extend_path uu frame path
  = if forallb (callsign_ok uu) path
    then Ok (frame ++ flat_map (address_bytes uu) path)
    else Raise ValueError.
Proof.
  revert frame. induction path as [| call path IH]; intro frame.
  - cbn. now rewrite app_nil_r.
  - cbn [extend_path forallb flat_map]. rewrite encode_callsign_spec.
    destruct (callsign_ok uu call); cbn [bind andb]; [| reflexivity].
    rewrite IH, <- app_assoc. reflexivity.
Qed.

Lemma or_last_snoc (front : list Z) (b mask : Z) :
  or_last (front ++ [b]) mask
  = (b' <- byte_of (Z.lor b mask) ;; Ok (front ++ [b'])).
Proof.
  unfold or_last. rewrite rev_app_distr. cbn [rev app].
  now rewrite rev_involutive.
Qed.

(** Every callsign in the order the frame holds them, as address bytes;
    the last of them is the SSID byte 0x60 of the last callsign. *)
Lemma raw_addresses_snoc (calls : list pystr) :
  calls <> [] ->
  exists front,
    flat_map (address_bytes uu) calls = front ++ [0x60]
    /\ Forall (fun b => Z.testbit b 0 = false) front
    /\ forallb in_byte (flat_map (address_bytes uu) calls)
       = forallb (callsign_ok uu) calls.
Proof.
  induction calls as [| call calls IH]; [congruence | intros _].
  assert (Forall (fun b => Z.testbit b 0 = false)
                 (map (fun c => Z.shiftl c 1) (callsign_chars uu call))) as Hev.
  { apply Forall_forall. intros b Hb. apply in_map_iff in Hb as (c & <- & _).
    apply shifted_even. }
  assert (forallb in_byte (address_bytes uu call) = callsign_ok uu call) as Hin.
  { unfold address_bytes, callsign_ok, all_ascii.
    rewrite forallb_app, forallb_map,
      (forallb_ext _ is_ascii _ shifted_in_byte).
    cbn. now rewrite !andb_true_r. }
  cbn [flat_map forallb]. rewrite forallb_app, Hin.
  destruct calls as [| call' calls'].
  - exists (map (fun c => Z.shiftl c 1) (callsign_chars uu call)).
    cbn [flat_map forallb]. rewrite app_nil_r, andb_true_r.
    split; [reflexivity | split; [exact Hev | reflexivity]].
  - destruct IH as (front & Hraw & Hfront & Hbytes); [congruence |].
    exists (address_bytes uu call ++ front).
    rewrite Hraw, <- app_assoc. split; [reflexivity | split].
    + apply Forall_app. split; [| exact Hfront].
      unfold address_bytes. apply Forall_app. split; [exact Hev |].
      constructor; [reflexivity | constructor].
    + rewrite <- Hraw, Hbytes. reflexivity.
Qed.

(** What [address_field] returns: the address bytes of destination,
    source and path with the last byte, 0x60, turned into 0x61. *)
Lemma address_field_spec (source destination : pystr) (path : list pystr) :
  exists front,
    flat_map (address_bytes uu) (destination :: source :: path)
    = front ++ [0x60]
    /\ Forall (fun b => Z.testbit b 0 = false) front
    /\ address_field uu source destination path
       = if forallb (callsign_ok uu) (destination :: source :: path)
         then Ok (front ++ [0x61]) else Raise ValueError.
Proof.
  destruct (raw_addresses_snoc (destination :: source :: path))
    as (front & Hraw & Hfront & _); [congruence |].
  exists front. split; [exact Hraw | split; [exact Hfront |]].
  unfold address_field. rewrite !encode_callsign_spec.
  cbn [forallb].
  destruct (callsign_ok uu destination); cbn [bind andb]; [| reflexivity].
  destruct (callsign_ok uu source); cbn [bind andb]; [| reflexivity].
  rewrite extend_path_spec.
  destruct (forallb (callsign_ok uu) path); cbn [bind]; [| reflexivity].
  cbn [flat_map] in Hraw. rewrite <- app_assoc, Hraw, or_last_snoc.
  reflexivity.
Qed.

End FrameProperties.

Section FrameTheorems.

Variable uu : Z -> list Z.

Lemma upper_ascii (s : pystr) :
  all_ascii s = true ->
  all_ascii (upper uu s) = true /\ length (upper uu s) = length s.
Proof.
  unfold all_ascii, upper. induction s as [| c s IH]; intro H.
  - split; reflexivity.
  - cbn [forallb] in H. apply andb_true_iff in H as [Hc Hs].
    destruct (IH Hs) as [IH1 IH2]. cbn [flat_map].
    rewrite forallb_app, length_app, IH1, IH2.
    unfold upper_char. rewrite Hc.
    destruct ((97 <=? c) && (c <=? 122)) eqn:E.
    + split; [| reflexivity]. cbn [forallb]. rewrite !andb_true_r.
      apply andb_true_iff in E as [E1 E2].
      apply Z.leb_le in E1. apply Z.leb_le in E2.
      unfold is_ascii. apply andb_true_iff.
      rewrite Z.leb_le, Z.ltb_lt. lia.
    + split; [| reflexivity]. cbn [forallb]. now rewrite Hc.
Qed.

Lemma padded_ascii (callsign : pystr) :
  all_ascii callsign = true ->
  all_ascii (firstn 6 (ljust 6 callsign)) = true
  /\ length (firstn 6 (ljust 6 callsign)) = 6%nat.
Proof.
  intro H. split.
  - unfold all_ascii in *. apply forallb_forall. intros c Hc.
    apply (In_nth _ _ 0) in Hc as (k & Hk & <-).
    rewrite length_firstn in Hk. rewrite nth_firstn.
    destruct (k <? 6)%nat eqn:E; [| reflexivity].
    apply Nat.ltb_lt in E. unfold ljust.
    destruct (Nat.lt_ge_cases k (length callsign)) as [Hlt | Hge].
    + rewrite app_nth1 by exact Hlt.
      apply (proj1 (forallb_forall _ _) H), nth_In, Hlt.
    + rewrite app_nth2 by exact Hge.
      rewrite nth_repeat_lt; [reflexivity |].
      unfold ljust in Hk. rewrite length_app, repeat_length in Hk. lia.
  - rewrite length_firstn. unfold ljust.
    rewrite length_app, repeat_length. lia.
Qed.

Lemma ascii_callsign_ok (callsign : pystr) :
  all_ascii callsign = true ->
  callsign_ok uu callsign = true
  /\ length (address_bytes uu callsign) = 7%nat.
Proof.
  intro H. destruct (padded_ascii callsign H) as [Hp Hl].
  destruct (upper_ascii _ Hp) as [Hu Hul].
  unfold callsign_ok, address_bytes, callsign_chars. split; [exact Hu |].
  rewrite length_app, length_map, Hul, Hl. reflexivity.
Qed.

Lemma ascii_calls_ok (calls : list pystr) :
  forallb all_ascii calls = true ->
  forallb (callsign_ok uu) calls = true
  /\ length (flat_map (address_bytes uu) calls) = (7 * length calls)%nat.
Proof.
  induction calls as [| call calls IH]; intro H.
  - split; reflexivity.
  - cbn [forallb] in H. apply andb_true_iff in H as [Hc Hs].
    destruct (IH Hs) as [IH1 IH2].
    destruct (ascii_callsign_ok call Hc) as [Hok Hlen].
    cbn [forallb flat_map length]. rewrite Hok, IH1, length_app, Hlen, IH2.
    split; [reflexivity | lia].
Qed.

(** The whole of [ax25_body], by cases on what its inputs hold. *)
Lemma ax25_body_spec (source destination : pystr) (path : list pystr)
      (info : pystr) :
  exists front,
    flat_map (address_bytes uu) (destination :: source :: path)
    = front ++ [0x60]
    /\ Forall (fun b => Z.testbit b 0 = false) front
    /\ ax25_body uu source destination path info
       = if forallb (callsign_ok uu) (destination :: source :: path)
         then if all_ascii info
              then let frame := (front ++ [0x61]) ++ [0x03; 0xF0] ++ info in
                   let crc := crc16_ccitt frame in
                   Ok (frame ++ [Z.land crc 0xFF; Z.shiftr crc 8])
              else Raise UnicodeEncodeError
         else Raise ValueError.
Proof.
  destruct (raw_addresses_snoc uu (destination :: source :: path))
    as (front' & Hraw' & _ & Hbytes); [congruence |].
  destruct (address_field_spec uu source destination path)
    as (front & Hraw & Hfront & Haddr).
  assert (front' = front) as ->.
  { rewrite Hraw in Hraw'. now apply app_inj_tail in Hraw' as [-> _]. }
  exists front. split; [exact Hraw | split; [exact Hfront |]].
  unfold ax25_body. rewrite Haddr.
  destruct (forallb (callsign_ok uu) (destination :: source :: path)) eqn:Hok;
    cbn [bind]; [| reflexivity].
  unfold encode_ascii.
  destruct (all_ascii info) eqn:Hinfo; cbn [bind]; [| reflexivity].
  cbn zeta. rewrite <- !app_assoc.
  set (frame := front ++ [0x61] ++ [0x03; 0xF0] ++ info).
  assert (forallb in_byte frame = true) as Hframe.
  { subst frame. rewrite Hraw in Hbytes.
    rewrite forallb_app in Hbytes. apply andb_true_iff in Hbytes as [Hf _].
    rewrite !forallb_app, Hf. cbn [forallb andb].
    change (in_byte 97) with true. change (in_byte 3) with true.
    change (in_byte 240) with true. cbn [andb].
    apply forallb_forall. intros c Hc. apply is_ascii_in_byte.
    apply (proj1 (forallb_forall _ _) Hinfo), Hc. }
  pose proof (crc16_ccitt_range frame Hframe) as Hcrc.
  unfold to_bytes_2_little.
  destruct ((0 <=? crc16_ccitt frame) && (crc16_ccitt frame <? 65536)) eqn:E.
  - cbn [bind]. subst frame. now rewrite <- !app_assoc.
  - apply andb_false_iff in E as [E | E];
      [apply Z.leb_gt in E | apply Z.ltb_ge in E]; lia.
Qed.

(** C3: in every frame [ax25_frame] builds, the address bytes (those of
    destination, source and path callsigns, placed after the 32 flag
    bytes and before the control byte 0x03) end in a byte whose low bit
    is 1, and every other address byte has its low bit 0; with ASCII
    callsigns each address field is 7 bytes long, so that byte is the
    last one of the final 7-byte field. *)
Theorem address_end_marker (source destination : pystr) (path : list pystr)
        (info : pystr) (packet : list Z) :
  ax25_frame uu source destination path info = Ok packet ->
  exists addr rest,
    address_field uu source destination path = Ok addr
    /\ packet = repeat FLAG PREAMBLE_LENGTH ++ addr ++ [0x03; 0xF0] ++ rest
    /\ addr <> []
    /\ (forall i, (i < length addr)%nat ->
                  Z.testbit (nth i addr 0) 0 = (i =? length addr - 1)%nat)
    /\ (forallb all_ascii (destination :: source :: path) = true ->
        length addr = (7 * (2 + length path))%nat).
Proof.
  intro H.
  destruct (ax25_body_spec source destination path info)
    as (front & Hraw & Hfront & Hbody).
  destruct (address_field_spec uu source destination path)
    as (front' & Hraw' & _ & Haddr).
  assert (front' = front) as ->.
  { rewrite Hraw in Hraw'. now apply app_inj_tail in Hraw' as [-> _]. }
  unfold ax25_frame in H. rewrite Hbody in H.
  destruct (forallb (callsign_ok uu) (destination :: source :: path)) eqn:Hok;
    [| discriminate H].
  destruct (all_ascii info) eqn:Hinfo; [| discriminate H].
  cbn [bind] in H. injection H as <-.
  exists (front ++ [0x61]).
  eexists. split; [exact Haddr | split; [| split; [| split]]].
  - cbn zeta. rewrite <- !app_assoc. reflexivity.
  - intro E. now apply app_eq_nil in E as [_ E].
  - intros i Hi. rewrite length_app in *. cbn [length] in *.
    replace (length front + 1 - 1)%nat with (length front) by lia.
    destruct (Nat.eqb_spec i (length front)) as [-> | Hne].
    + rewrite app_nth2, Nat.sub_diag by lia. reflexivity.
    + rewrite app_nth1 by lia.
      apply (proj1 (Forall_forall _ _) Hfront), nth_In. lia.
  - intro Hascii. destruct (ascii_calls_ok _ Hascii) as [_ Hlen].
    rewrite Hraw in Hlen. rewrite !length_app in *. cbn [length] in *. lia.
Qed.

(** C8, as the code has it: [ax25_frame] fails with [UnicodeEncodeError]
    exactly when every callsign encodes and the information string holds
    a character past ASCII; it fails with a plain [ValueError] exactly
    when a callsign, once padded or cut to six characters and
    upper-cased, still holds a character past ASCII; it succeeds in the
    remaining case, which includes all inputs that are ASCII throughout. *)
Theorem ax25_frame_failure_kinds (source destination : pystr)
        (path : list pystr) (info : pystr) :
  let calls_ok := forallb (callsign_ok uu) (destination :: source :: path) in
  let r := ax25_frame uu source destination path info in
  (r = Raise UnicodeEncodeError <-> calls_ok = true /\ all_ascii info = false)
  /\ (r = Raise ValueError <-> calls_ok = false)
  /\ (is_ok r = true <-> calls_ok = true /\ all_ascii info = true)
  /\ (forallb all_ascii (destination :: source :: path) = true ->
      calls_ok = true).
Proof.
  cbn zeta.
  destruct (ax25_body_spec source destination path info)
    as (front & _ & _ & Hbody).
  unfold ax25_frame. rewrite Hbody.
  split; [| split; [| split]].
  - destruct (forallb (callsign_ok uu) (destination :: source :: path));
      destruct (all_ascii info); cbn; split;
      intros; try tauto; try discriminate; intuition discriminate.
  - destruct (forallb (callsign_ok uu) (destination :: source :: path));
      destruct (all_ascii info); cbn; split;
      intros; try tauto; try discriminate.
  - destruct (forallb (callsign_ok uu) (destination :: source :: path));
      destruct (all_ascii info); cbn; split;
      intros; try tauto; try discriminate; intuition discriminate.
  - intro Hascii. now destruct (ascii_calls_ok _ Hascii) as [-> _].
Qed.

End FrameTheorems.

(** The theorem C3 at the call [play_aprs] makes. *)
Lemma address_end_marker_witness :
  exists packet,
    ax25_frame Examples.keep_upper Examples.source Examples.destination
               Examples.path Examples.info = Ok packet
    /\ exists addr rest,
      address_field Examples.keep_upper Examples.source Examples.destination
                    Examples.path = Ok addr
      /\ packet = repeat FLAG PREAMBLE_LENGTH ++ addr ++ [0x03; 0xF0] ++ rest
      /\ addr <> []
      /\ (forall i, (i < length addr)%nat ->
                    Z.testbit (nth i addr 0) 0 = (i =? length addr - 1)%nat)
      /\ (forallb all_ascii
                  (Examples.destination :: Examples.source :: Examples.path)
          = true ->
          length addr = (7 * (2 + length Examples.path))%nat).
Proof.
  eexists. split.
  - vm_compute. reflexivity.
  - apply (address_end_marker Examples.keep_upper Examples.source
             Examples.destination Examples.path Examples.info).
    vm_compute. reflexivity.
Defined.

(** C8 fails as stated: a callsign whose seventh character is U+00E9
    holds a character past ASCII and the frame is built all the same,
    whatever the upper-casing table; and a callsign with U+00D6 among its
    first six characters makes the builder fail with [ValueError], not
    with an encoding error. *)
Lemma non_ascii_callsign_counterexample :
  all_ascii Examples.long_call = false
  /\ (forall uu, is_ok (ax25_frame uu Examples.long_call Examples.destination
                                  [] Examples.info) = true)
  /\ all_ascii Examples.umlaut_call = false
  /\ ax25_frame Examples.keep_upper Examples.umlaut_call Examples.destination
                [] Examples.info = Raise ValueError.
Proof.
  split; [reflexivity | split; [| split; reflexivity]].
  intro uu. vm_compute. reflexivity.
Qed.

(** ** Truncation and remainder on the reals *)

Local Open Scope R_scope.

Lemma int_IZR (z : Z) : int (IZR z) = z.
Proof.
  unfold int. destruct (Rle_dec 0 (IZR z)).
  - apply ZfloorZ.
  - apply Zceil_eq. lra.
Qed.

Lemma int_0 : int 0 = 0%Z.
Proof. apply (int_IZR 0). Qed.

Lemma int_nonneg (x : R) : 0 <= x -> IZR (int x) <= x < IZR (int x) + 1.
Proof.
  intro H. unfold int. destruct (Rle_dec 0 x); [| contradiction].
  apply Zfloor_bound.
Qed.

Lemma int_neg (x : R) : x < 0 -> IZR (int x) - 1 < x <= IZR (int x).
Proof.
  intro H. unfold int. destruct (Rle_dec 0 x); [lra |].
  apply Zceil_bound.
Qed.

Lemma int_nonneg_sign (x : R) : 0 <= x -> (0 <= int x)%Z.
Proof.
  intro H. unfold int. destruct (Rle_dec 0 x); [| contradiction].
  apply (Zfloor_lub 0 x H).
Qed.

Lemma int_neg_sign (x : R) : x < 0 -> (int x <= 0)%Z.
Proof.
  intro H. pose proof (int_neg x H) as [Hlo _].
  apply le_IZR. apply Rnot_lt_le. intro Hc.
  assert (1 <= IZR (int x)) as H1.
  { apply (IZR_le 1). apply lt_IZR in Hc. lia. }
  lra.
Qed.

(** Truncation never grows a value in size. *)
Lemma int_abs_le (x : R) : Rabs (IZR (int x)) <= Rabs x.
Proof.
  destruct (Rle_dec 0 x) as [H | H].
  - pose proof (int_nonneg x H) as [Hlo _].
    pose proof (IZR_le _ _ (int_nonneg_sign x H)) as Hs.
    rewrite !Rabs_pos_eq; lra.
  - apply Rnot_le_lt in H.
    pose proof (int_neg x H) as [_ Hhi].
    pose proof (IZR_le _ _ (int_neg_sign x H)) as Hs.
    rewrite (Rabs_left1 (IZR (int x))) by exact Hs.
    rewrite (Rabs_left x) by exact H. lra.
Qed.

Lemma fmod_range (x m : R) : 0 < m -> 0 <= fmod x m < m.
Proof.
  intro Hm. unfold fmod.
  pose proof (Zfloor_bound (x / m)) as [Hlo Hhi].
  assert (x = x / m * m) as Hx by (field; lra).
  split.
  - apply Rmult_le_compat_r with (r := m) in Hlo; lra.
  - apply Rmult_lt_compat_r with (r := m) in Hhi; lra.
Qed.

Lemma fmod_shift (x m : R) (k : Z) :
  m <> 0 -> fmod (x - IZR k * m) m = fmod x m.
Proof.
  intro Hm. unfold fmod.
  replace ((x - IZR k * m) / m) with (x / m + IZR (- k))
    by (rewrite opp_IZR; field; exact Hm).
  rewrite Zfloor_addz, plus_IZR, opp_IZR. ring.
Qed.

Lemma two_PI_pos : 0 < 2 * PI.
Proof. pose proof PI_RGT_0. lra. Qed.

(** ** Tone synthesis *)

Lemma range_length (n : Z) : length (range n) = Z.to_nat n.
Proof. unfold range. now rewrite length_map, length_seq. Qed.

(** C1, as the code has it: the tone synthesizer returns [n] samples and
    the phase [p + ((2*pi*f*n/SAMPLE_RATE) mod 2*pi)]: only the advance
    is reduced modulo [2*pi], not the sum.  The phase returned lies in
    [[p, p + 2*pi)], differs from [p + 2*pi*f*n/SAMPLE_RATE] by a whole
    number of turns, and reducing it modulo [2*pi] gives the value
    [(p + 2*pi*f*n/SAMPLE_RATE) mod 2*pi]. *)
Theorem generate_continuous_tone_phase (f : R) (n : Z) (p a : R) :
  let advance := 2 * PI * f * IZR n / IZR SAMPLE_RATE in
  let tone := fst (generate_continuous_tone f n p a) in
  let phase' := snd (generate_continuous_tone f n p a) in
  length tone = Z.to_nat n
  /\ phase' = p + fmod advance (2 * PI)
  /\ p <= phase' < p + 2 * PI
  /\ (exists k : Z, phase' = p + advance - IZR k * (2 * PI))
  /\ fmod phase' (2 * PI) = fmod (p + advance) (2 * PI).
Proof.
  cbn zeta. unfold generate_continuous_tone. cbn [fst snd].
  set (advance := 2 * PI * f * IZR n / IZR SAMPLE_RATE).
  pose proof two_PI_pos as Hpos.
  pose proof (fmod_range advance (2 * PI) Hpos) as Hr.
  split; [now rewrite length_map, range_length |].
  split; [reflexivity |].
  split; [lra |].
  split.
  - exists (Zfloor (advance / (2 * PI))). unfold fmod. ring.
  - unfold fmod at 2.
    replace (p + (advance - IZR (Zfloor (advance / (2 * PI))) * (2 * PI)))
      with (p + advance - IZR (Zfloor (advance / (2 * PI))) * (2 * PI)) by ring.
    apply fmod_shift. lra.
Qed.

(** C1 fails as stated: from the starting phase 6, inside [[0, 2*pi)], a
    run of 320 samples at 1600 Hz returns the phase [6 + 2*pi/3], which
    is past [2*pi] and is not [(6 + 2*pi*1600*320/96000) mod 2*pi]. *)
Lemma phase_not_reduced_counterexample :
  let phase' := snd (generate_continuous_tone 1600 320 6 0.02) in
  0 <= 6 < 2 * PI
  /\ phase' = 6 + 2 * PI / 3
  /\ ~ (0 <= phase' < 2 * PI)
  /\ phase' <> fmod (6 + 2 * PI * 1600 * 320 / IZR SAMPLE_RATE) (2 * PI).
Proof.
  cbn zeta. unfold generate_continuous_tone. cbn [snd].
  pose proof PI2_3_2 as Hlo. pose proof PI_4 as Hhi.
  pose proof two_PI_pos as Hpos.
  assert (fmod (2 * PI * 1600 * 320 / IZR SAMPLE_RATE) (2 * PI) = 2 * PI / 3)
    as Hadv.
  { unfold fmod, SAMPLE_RATE.
    replace (2 * PI * 1600 * 320 / 96000 / (2 * PI)) with (16 / 3)
      by (field; lra).
    rewrite (Zfloor_eq 5) by lra. field. }
  rewrite Hadv.
  split; [lra |]. split; [reflexivity |]. split; [lra |].
  pose proof (fmod_range (6 + 2 * PI * 1600 * 320 / IZR SAMPLE_RATE)
                         (2 * PI) Hpos).
  lra.
Qed.

(** Inside [afsk_encode] the phase handed from one tone run to the next
    is the sum of the advances, each reduced on its own: after the 64
    sync bits it is [64 * pi / 3], ten turns and more. *)
Lemma next_phase_space (phase : R) :
  next_phase SPACE_TONE phase = phase + 2 * PI / 3.
Proof.
  pose proof two_PI_pos.
  unfold next_phase, fmod, SPACE_TONE, SAMPLE_RATE.
  change DURATION_PER_BIT with 320%Z.
  replace (2 * PI * 1600 * 320 / 96000 / (2 * PI)) with (16 / 3)
    by (field; lra).
  rewrite (Zfloor_eq 5) by lra. field.
Qed.

Lemma next_phase_mark (phase : R) : next_phase MARK_TONE phase = phase.
Proof.
  pose proof two_PI_pos.
  unfold next_phase, fmod, MARK_TONE, SAMPLE_RATE.
  change DURATION_PER_BIT with 320%Z.
  replace (2 * PI * 1800 * 320 / 96000 / (2 * PI)) with 6 by (field; lra).
  rewrite (Zfloor_eq 6) by lra. field.
Qed.

Lemma synthesize_phase (bits : list Z) (audio : list Z) (phase : R) :
  snd (fold_left bit_tone bits (audio, phase))
  = fold_left (fun p bit => next_phase (tone_of_bit bit) p) bits phase.
Proof.
  revert audio phase. induction bits as [| bit bits IH]; intros audio phase.
  - reflexivity.
  - cbn [fold_left]. unfold bit_tone at 2, generate_continuous_tone.
    destruct (bit =? 1)%Z eqn:E; rewrite IH; unfold tone_of_bit; rewrite E;
      reflexivity.
Qed.

Lemma phase_after_preamble :
  snd (synthesize preamble_bits) = 64 * PI / 3 /\ 2 * PI < 64 * PI / 3.
Proof.
  pose proof PI_RGT_0. split; [| lra].
  unfold synthesize. rewrite synthesize_phase.
  cbv [preamble_bits PREAMBLE_LENGTH Nat.iter nat_rect app fold_left].
  change (tone_of_bit 0) with SPACE_TONE.
  change (tone_of_bit 1) with MARK_TONE.
  rewrite !next_phase_mark, !next_phase_space. field.
Qed.

(** ** High-pass filter *)

Lemma filter_fold_length (alpha : R) (data : list R) (acc : list Z) (prev : R) :
  length (fst (fold_left (filter_body alpha) data (acc, prev)))
  = (length acc + length data)%nat.
Proof.
  revert acc prev. induction data as [| x data IH]; intros acc prev.
  - cbn. lia.
  - cbn [fold_left]. unfold filter_body at 2.
    rewrite IH, length_app. cbn [length]. lia.
Qed.

Lemma filter_fold_prefix (alpha : R) (data : list R) (acc : list Z) (prev : R) :
  exists ys,
    fst (fold_left (filter_body alpha) data (acc, prev)) = acc ++ ys.
Proof.
  revert acc prev. induction data as [| x data IH]; intros acc prev.
  - exists []. cbn. now rewrite app_nil_r.
  - cbn [fold_left]. unfold filter_body at 2.
    destruct (IH (acc ++ [int (alpha * (prev + x - last (map IZR acc) x))]) x)
      as (ys & ->).
    eexists. rewrite <- app_assoc. reflexivity.
Qed.

Lemma filter_first_zero (alpha x : R) :
  filter_body alpha ([], 0) x = ([0%Z], x).
Proof.
  unfold filter_body. cbn [map last app].
  replace (alpha * (0 + x - x)) with 0 by ring.
  now rewrite int_0.
Qed.

Lemma default_alpha_ok : filter_alpha 350 = Ok default_alpha.
Proof.
  pose proof PI_RGT_0 as Hpi.
  unfold filter_alpha, fdiv, default_alpha.
  destruct (Req_dec_T (350 * 2 * PI) 0) as [E | _]; [lra |].
  cbn [bind].
  assert (0 < 1 / (350 * 2 * PI)) as Hrc by (apply Rdiv_lt_0_compat; lra).
  destruct (Req_dec_T (1 / (350 * 2 * PI) + 1 / IZR SAMPLE_RATE) 0) as [E | _].
  - unfold SAMPLE_RATE in E. lra.
  - reflexivity.
Qed.

(** C10: [highpass_filter] returns as many values as it is given, and for
    a non-empty input the first of them is 0: the previous input starts
    at 0 and the missing previous output is replaced by the sample
    itself.  This holds for every cutoff the coefficient is defined for,
    the default 350 among them; for another cutoff the only outcome
    besides is the division by zero. *)
Theorem highpass_filter_length_first (data : list R) :
  (exists ys,
      highpass_filter data 350 = Ok ys
      /\ length ys = length data
      /\ (forall x rest, data = x :: rest -> exists tl, ys = 0%Z :: tl))
  /\ (forall cutoff,
        match highpass_filter data cutoff with
        | Ok ys =>
            length ys = length data
            /\ (forall x rest, data = x :: rest -> exists tl, ys = 0%Z :: tl)
        | Raise e => e = ZeroDivisionError
        end).
Proof.
  assert (forall alpha,
             let ys := fst (fold_left (filter_body alpha) data ([], 0)) in
             length ys = length data
             /\ (forall x rest, data = x :: rest -> exists tl, ys = 0%Z :: tl))
    as Hbody.
  { intro alpha. cbn zeta. split.
    - now rewrite filter_fold_length.
    - intros x rest ->. cbn [fold_left]. rewrite filter_first_zero.
      destruct (filter_fold_prefix alpha rest [0%Z] x) as (ys & ->).
      exists ys. reflexivity. }
  unfold highpass_filter. split.
  - rewrite default_alpha_ok. cbn [bind].
    eexists. split; [reflexivity | apply Hbody].
  - intro cutoff.
    destruct (filter_alpha cutoff) as [alpha | e] eqn:Ha; cbn [bind].
    + apply Hbody.
    + unfold filter_alpha, fdiv in Ha.
      destruct (Req_dec_T (cutoff * 2 * PI) 0); cbn [bind] in Ha;
        [congruence |].
      destruct (Req_dec_T _ 0); congruence.
Qed.

(** ** Normalisation *)

Lemma fold_max_abs (rest : list Z) (m0 : Z) :
  let m := fold_left (fun m s => Z.max m (Z.abs s)) rest m0 in
  (m0 <= m)%Z
  /\ (forall s, In s rest -> (Z.abs s <= m)%Z)
  /\ (m = m0 \/ exists s, In s rest /\ Z.abs s = m).
Proof.
  revert m0. induction rest as [| x rest IH]; intro m0; cbn zeta.
  - cbn. split; [lia | split; [tauto | now left]].
  - cbn [fold_left]. destruct (IH (Z.max m0 (Z.abs x))) as (H1 & H2 & H3).
    cbn zeta in *. split; [lia | split].
    + intros s [<- | Hs]; [lia | now apply H2].
    + destruct H3 as [H3 | (s & Hs & H3)].
      * destruct (Z.max_spec m0 (Z.abs x)) as [[_ E] | [_ E]].
        -- right. exists x. split; [now left | congruence].
        -- left. congruence.
      * right. exists s. split; [now right | exact H3].
Qed.

Lemma max_abs_spec (audio : list Z) :
  match max_abs audio with
  | Ok m => audio <> [] /\ is_max_abs m audio
  | Raise e => audio = [] /\ e = ValueError
  end.
Proof.
  destruct audio as [| x rest]; cbn [max_abs]; [now split |].
  split; [congruence |].
  destruct (fold_max_abs rest (Z.abs x)) as (H1 & H2 & H3). cbn zeta in *.
  split.
  - destruct H3 as [H3 | (s & Hs & H3)].
    + exists x. split; [now left | congruence].
    + exists s. split; [now right | exact H3].
  - intros s [<- | Hs]; [exact H1 | now apply H2].
Qed.

Lemma is_max_abs_unique (m m' : Z) (audio : list Z) :
  is_max_abs m audio -> is_max_abs m' audio -> m = m'.
Proof.
  intros [(s & Hs & <-) Hle] [(s' & Hs' & <-) Hle'].
  pose proof (Hle _ Hs'). pose proof (Hle' _ Hs). lia.
Qed.

Lemma max_abs_of_max (m : Z) (audio : list Z) :
  is_max_abs m audio -> max_abs audio = Ok m.
Proof.
  intro H. pose proof (max_abs_spec audio) as Hs.
  destruct (max_abs audio) as [m' | e].
  - destruct Hs as [_ Hs]. f_equal. exact (is_max_abs_unique _ _ _ Hs H).
  - destruct Hs as [-> _]. destruct H as [(s & [] & _) _].
Qed.

Lemma rescale_unit (s : Z) : rescale 32767 s = s.
Proof.
  unfold rescale.
  replace (IZR s * (32767 / 32767)) with (IZR s) by (field; lra).
  apply int_IZR.
Qed.


Lemma synthesize_fold_length (bits : list Z) (audio : list Z) (phase : R) :
  length (fst (fold_left bit_tone bits (audio, phase)))
  = (length audio + 320 * length bits)%nat.
Proof.
  revert audio phase. induction bits as [| b bits IH]; intros audio phase.
  - cbn. lia.
  - cbn [fold_left]. unfold bit_tone at 2, generate_continuous_tone.
    destruct (b =? 1)%Z; rewrite IH, length_app, length_map, range_length;
      change (Z.to_nat DURATION_PER_BIT) with 320%nat; cbn [length]; lia.
Qed.

Lemma synthesize_length (bits : list Z) :
  length (fst (synthesize bits)) = (320 * length bits)%nat.
Proof. unfold synthesize. now rewrite synthesize_fold_length. Qed.


(** C9: a non-empty buffer whose largest absolute sample value is 32767
    comes back from the rescaling step with every sample unchanged. *)
Theorem normalize_idempotent (audio : list Z) :
  is_max_abs 32767 audio -> normalize audio = Ok audio.
Proof.
  intro H. unfold normalize. rewrite (max_abs_of_max _ _ H). cbn [bind].
  change (32767 >? 0)%Z with true. cbv iota. f_equal.
  fold (rescale 32767). rewrite <- (map_id audio) at 2.
  apply map_ext. intro s. apply rescale_unit.
Qed.

(** C9 at the buffer [32767, -12, 0, -32767]. *)
Lemma normalize_idempotent_witness :
  is_max_abs 32767 [32767; -12; 0; -32767]%Z
  /\ normalize [32767; -12; 0; -32767]%Z = Ok [32767; -12; 0; -32767]%Z.
Proof.
  assert (is_max_abs 32767 [32767; -12; 0; -32767]%Z) as H.
  { split.
    - exists 32767%Z. split; [now left | reflexivity].
    - intros s [<- | [<- | [<- | [<- | []]]]]; cbn; lia. }
  split; [exact H | exact (normalize_idempotent _ H)].
Defined.

(** The step on a small buffer: the factor is 32767 / 2 and the
    truncation is toward zero on both sides. *)
Example normalize_small :
  normalize [1; -1; 2; 0]%Z = Ok [16383; -16383; 32767; 0]%Z.
Proof.
  unfold normalize. cbn [max_abs fold_left bind].
  change (Z.max (Z.max (Z.max (Z.abs 1) (Z.abs (-1))) (Z.abs 2)) (Z.abs 0))
    with 2%Z.
  change (2 >? 0)%Z with true. cbv iota. cbn [map]. unfold int.
  repeat match goal with
         | |- context [Rle_dec 0 ?x] =>
             destruct (Rle_dec 0 x); try (exfalso; lra)
         end.
  repeat f_equal;
    first [apply Zfloor_eq; lra | apply Zceil_eq; lra].
Qed.

(** ** Range of the filtered signal *)

(** *** Bounds on pi, sine and cosine *)

Lemma PI_bounds : 3.1415 < PI < 3.1416.
Proof.
  pose proof (PI_2_3_7_ineq 2) as [Hlo Hhi].
  unfold sum_f_R0, tg_alt, PI_2_3_7_tg, Ratan_seq in Hlo, Hhi.
  simpl in Hlo, Hhi. lra.
Qed.

Lemma Rabs_le_inv (x a : R) : Rabs x <= a -> - a <= x <= a.
Proof. unfold Rabs. destruct (Rcase_abs x); lra. Qed.

Lemma sin_abs_le (x : R) : Rabs (sin x) <= Rabs x.
Proof.
  assert (forall y, 0 <= y -> Rabs (sin y) <= y) as Hpos.
  { intros y Hy. destruct (Req_dec y 0) as [-> | Hne].
    - rewrite sin_0, Rabs_R0. lra.
    - assert (0 < y) as Hy' by lra.
      pose proof (sin_lt_x y Hy'). pose proof (SIN_bound y) as [Hl Hu].
      apply Rabs_le. split; [| lra].
      destruct (Rle_dec y PI) as [Hle | Hgt].
      + pose proof (sin_ge_0 y Hy Hle). lra.
      + pose proof PI_bounds. lra. }
  destruct (Rle_dec 0 x) as [H | H].
  - rewrite (Rabs_pos_eq x) by exact H. now apply Hpos.
  - rewrite <- (Rabs_Ropp (sin x)), <- sin_neg, <- (Rabs_Ropp x).
    rewrite (Rabs_pos_eq (- x)) by lra. apply Hpos. lra.
Qed.

Lemma Rabs_half (x : R) : Rabs (x / 2) = Rabs x / 2.
Proof.
  unfold Rdiv. rewrite Rabs_mult, (Rabs_pos_eq (/ 2)) by lra. reflexivity.
Qed.

Lemma sin_lipschitz (a b : R) : Rabs (sin a - sin b) <= Rabs (a - b).
Proof.
  rewrite form4, !Rabs_mult, (Rabs_pos_eq 2) by lra.
  pose proof (COS_bound ((a + b) / 2)) as Hc.
  assert (Rabs (cos ((a + b) / 2)) <= 1) as Hc' by (apply Rabs_le; lra).
  pose proof (sin_abs_le ((a - b) / 2)) as Hs. rewrite Rabs_half in Hs.
  pose proof (Rabs_pos (sin ((a - b) / 2))).
  pose proof (Rabs_pos (cos ((a + b) / 2))).
  nra.
Qed.

Lemma cos_lipschitz (a b : R) : Rabs (cos a - cos b) <= Rabs (a - b).
Proof.
  rewrite form2, !Rabs_mult.
  replace (Rabs (-2)) with 2 by (rewrite Rabs_left; lra).
  pose proof (SIN_bound ((a + b) / 2)) as Hc.
  assert (Rabs (sin ((a + b) / 2)) <= 1) as Hc' by (apply Rabs_le; lra).
  pose proof (sin_abs_le ((a - b) / 2)) as Hs. rewrite Rabs_half in Hs.
  pose proof (Rabs_pos (sin ((a - b) / 2))).
  pose proof (Rabs_pos (sin ((a + b) / 2))).
  nra.
Qed.

Lemma cos_lower (x : R) : 1 - x * x / 2 <= cos x.
Proof.
  replace x with (2 * (x / 2)) at 3 by field.
  rewrite cos_2a_sin.
  pose proof (sin_abs_le (x / 2)) as Hs.
  apply Rsqr_le_abs_1 in Hs. unfold Rsqr in Hs. lra.
Qed.

Lemma tone_omega_bounds (w : R) : is_tone w -> 0.1047 < w < 0.11782.
Proof.
  pose proof PI_bounds as [Hlo Hhi].
  unfold is_tone, tone_omega, SPACE_TONE, MARK_TONE, SAMPLE_RATE.
  intros [-> | ->]; lra.
Qed.

Lemma tone_omega_gap (w1 w2 : R) :
  is_tone w1 -> is_tone w2 -> Rabs (w1 - w2) <= 0.0130901.
Proof.
  pose proof PI_bounds as [Hlo Hhi].
  unfold is_tone, tone_omega, SPACE_TONE, MARK_TONE, SAMPLE_RATE.
  intros [-> | ->] [-> | ->]; apply Rabs_le; lra.
Qed.

Lemma default_alpha_bounds : 0.9776 < default_alpha < 0.97761.
Proof.
  pose proof PI_bounds as [Hlo Hhi].
  replace default_alpha with (96000 / (96000 + 700 * PI))
    by (unfold default_alpha, SAMPLE_RATE; field; lra).
  split; apply Rmult_lt_reg_r with (96000 + 700 * PI); try lra;
    unfold Rdiv; rewrite Rmult_assoc, Rinv_l by lra; lra.
Qed.

(** *** The steady response of the recurrence *)

Section SteadyResponse.

Variable alpha : R.
Hypothesis alpha_unit : 0 < alpha < 1.

Lemma gain_den_pos (w : R) : 0 < gain_den alpha (cos w).
Proof. pose proof (COS_bound w). unfold gain_den. nra. Qed.

Lemma coef_sin_den (w : R) :
  coef_sin alpha w * gain_den alpha (cos w) = alpha * (1 + alpha) * (1 + cos w).
Proof. pose proof (gain_den_pos w). unfold coef_sin. field. lra. Qed.

Lemma coef_cos_den (w : R) :
  coef_cos alpha w * gain_den alpha (cos w) = - (alpha * (1 - alpha) * sin w).
Proof. pose proof (gain_den_pos w). unfold coef_cos. field. lra. Qed.

(** The steady response solves the recurrence of the filter on a
    sinusoid that advances by [w] per sample. *)
Lemma steady_identity (w th : R) :
  steady alpha w th + alpha * steady alpha w (th - w)
  = alpha * (sin th + sin (th - w)).
Proof.
  unfold steady. rewrite sin_minus, cos_minus.
  pose proof (gain_den_pos w) as HD.
  pose proof (coef_sin_den w) as HP. pose proof (coef_cos_den w) as HQ.
  pose proof (sin2_cos2 w) as Hsc. unfold Rsqr in Hsc.
  revert HD HP HQ Hsc.
  generalize (coef_sin alpha w) (coef_cos alpha w)
             (cos w) (sin w) (sin th) (cos th).
  intros P Q c s u v HD HP HQ Hsc.
  apply Rmult_eq_reg_l with (gain_den alpha c); [| lra].
  unfold gain_den in *. nsatz.
Qed.

(** Its gain is below that at frequency zero, [2 * alpha / (1 + alpha)]. *)
Lemma steady_bound (w th : R) :
  Rabs (steady alpha w th) <= 2 * alpha / (1 + alpha).
Proof.
  unfold steady.
  pose proof (COS_bound w) as Hc. pose proof (gain_den_pos w) as HD.
  pose proof (coef_sin_den w) as HP. pose proof (coef_cos_den w) as HQ.
  pose proof (sin2_cos2 w) as Hsc. unfold Rsqr in Hsc.
  pose proof (sin2_cos2 th) as Hth. unfold Rsqr in Hth.
  revert Hc HD HP HQ Hsc Hth.
  generalize (coef_sin alpha w) (coef_cos alpha w)
             (cos w) (sin w) (sin th) (cos th).
  intros P Q c s u v Hc HD HP HQ Hsc Hth.
  set (g := 2 * alpha / (1 + alpha)).
  assert (0 < g) as Hg by (apply Rdiv_lt_0_compat; lra).
  assert (g * (1 + alpha) = 2 * alpha) as Hg1 by (unfold g; field; lra).
  assert ((P * u + Q * v) * (P * u + Q * v) <= P * P + Q * Q) as H1.
  { pose proof (Rle_0_sqr (P * v - Q * u)) as Hsq. unfold Rsqr in Hsq.
    assert ((P * u + Q * v) * (P * u + Q * v)
            + (P * v - Q * u) * (P * v - Q * u)
            = (P * P + Q * Q) * (u * u + v * v)) as E by ring.
    rewrite Hth, Rmult_1_r in E. lra. }
  assert ((P * P + Q * Q) * gain_den alpha c = 2 * alpha * alpha * (1 + c))
    as H2.
  { apply Rmult_eq_reg_l with (gain_den alpha c); [| lra].
    unfold gain_den in *. nsatz. }
  assert (P * P + Q * Q <= g * g) as H3.
  { apply Rmult_le_reg_r with (gain_den alpha c * ((1 + alpha) * (1 + alpha))).
    - apply Rmult_lt_0_compat; [exact HD | nra].
    - replace ((P * P + Q * Q)
               * (gain_den alpha c * ((1 + alpha) * (1 + alpha))))
        with (2 * alpha * alpha * (1 + c) * ((1 + alpha) * (1 + alpha)))
        by (rewrite <- H2; ring).
      replace (g * g * (gain_den alpha c * ((1 + alpha) * (1 + alpha))))
        with (g * (1 + alpha) * (g * (1 + alpha)) * gain_den alpha c) by ring.
      rewrite Hg1. unfold gain_den.
      assert (0 <= (1 - c) * ((1 - alpha) * (1 - alpha)))
        by (apply Rmult_le_pos; nra).
      nra. }
  apply Rabs_le. split; nra.
Qed.

End SteadyResponse.

(** *** One step of the filter at the default cutoff *)

Section DefaultCutoff.

Variable alpha : R.
Hypothesis alpha_range : 0.9776 < alpha < 0.97761.

Lemma alpha_range_unit : 0 < alpha < 1.
Proof. lra. Qed.

Lemma tone_den_lower (w : R) :
  is_tone w -> 3.897 <= gain_den alpha (cos w).
Proof.
  intros Hw. pose proof (tone_omega_bounds w Hw) as Hb.
  pose proof (cos_lower w) as Hc.
  assert (w * w <= 0.11782 * 0.11782) as Hw2 by nra.
  unfold gain_den. nra.
Qed.

(** Changing the tone moves the steady response by little. *)
Lemma steady_switch (w1 w2 th : R) :
  is_tone w1 -> is_tone w2 ->
  Rabs (steady alpha w1 th - steady alpha w2 th) <= 0.000075.
Proof.
  intros H1 H2.
  pose proof (tone_den_lower w1 H1) as HD1.
  pose proof (tone_den_lower w2 H2) as HD2.
  pose proof (coef_sin_den alpha alpha_range_unit w1) as HP1.
  pose proof (coef_cos_den alpha alpha_range_unit w1) as HQ1.
  pose proof (coef_sin_den alpha alpha_range_unit w2) as HP2.
  pose proof (coef_cos_den alpha alpha_range_unit w2) as HQ2.
  pose proof (tone_omega_gap w1 w2 H1 H2) as Hgap.
  pose proof (Rle_trans _ _ _ (cos_lipschitz w1 w2) Hgap) as Hc.
  pose proof (Rle_trans _ _ _ (sin_lipschitz w1 w2) Hgap) as Hs.
  pose proof (Rle_trans _ _ _ (sin_abs_le (w1 - w2)) Hgap) as Hsd.
  rewrite sin_minus in Hsd.
  pose proof (SIN_bound th) as Hu. pose proof (COS_bound th) as Hv.
  unfold steady.
  assert (gain_den alpha (cos w1) = 1 + alpha * alpha + 2 * alpha * cos w1)
    as ED1 by reflexivity.
  assert (gain_den alpha (cos w2) = 1 + alpha * alpha + 2 * alpha * cos w2)
    as ED2 by reflexivity.
  revert HD1 HD2 HP1 HQ1 HP2 HQ2 Hc Hs Hsd Hu Hv ED1 ED2.
  generalize (coef_sin alpha w1) (coef_cos alpha w1)
             (coef_sin alpha w2) (coef_cos alpha w2)
             (cos w1) (sin w1) (cos w2) (sin w2) (sin th) (cos th)
             (gain_den alpha (cos w1)) (gain_den alpha (cos w2)).
  intros P1 Q1 P2 Q2 c1 s1 c2 s2 u v D1 D2
         HD1 HD2 HP1 HQ1 HP2 HQ2 Hc Hs Hsd Hu Hv ED1 ED2.
  apply Rabs_le_inv in Hc, Hs, Hsd.
  assert ((P1 - P2) * (D1 * D2)
          = alpha * (1 + alpha) * ((1 - alpha) * (1 - alpha)) * (c1 - c2))
    as EP.
  { replace ((P1 - P2) * (D1 * D2)) with (P1 * D1 * D2 - P2 * D2 * D1) by ring.
    rewrite HP1, HP2, ED1, ED2. ring. }
  assert ((Q1 - Q2) * (D1 * D2)
          = - (alpha * (1 - alpha))
            * ((s1 - s2) * (1 + alpha * alpha)
               + 2 * alpha * (s1 * c2 - c1 * s2)))
    as EQ.
  { replace ((Q1 - Q2) * (D1 * D2)) with (Q1 * D1 * D2 - Q2 * D2 * D1) by ring.
    rewrite HQ1, HQ2, ED1, ED2. ring. }
  assert (15.18 <= D1 * D2) as HW by nra.
  clear HP1 HQ1 HP2 HQ2 ED1 ED2 HD1 HD2.
  replace (P1 * u + Q1 * v - (P2 * u + Q2 * v))
    with ((P1 - P2) * u + (Q1 - Q2) * v) by ring.
  revert EP EQ HW. generalize (D1 * D2) (P1 - P2) (Q1 - Q2).
  intros W X Y EP EQ HW.
  assert (0 <= alpha * (1 + alpha) <= 1.9334) as HA1 by nra.
  assert (0 <= (1 - alpha) * (1 - alpha) <= 0.000502) as HA2 by nra.
  assert (0 <= alpha * (1 + alpha) * ((1 - alpha) * (1 - alpha)) <= 0.00098)
    as HK1.
  { revert HA1 HA2.
    generalize (alpha * (1 + alpha)) ((1 - alpha) * (1 - alpha)).
    bound_product. }
  assert (0 <= alpha * (1 - alpha) <= 0.0219) as HK2 by nra.
  assert (- 0.0512 <= (s1 - s2) * (1 + alpha * alpha)
                      + 2 * alpha * (s1 * c2 - c1 * s2) <= 0.0512) as HE2.
  { assert (1.9557 <= 1 + alpha * alpha <= 1.95573) as HB1 by nra.
    assert (1.9552 <= 2 * alpha <= 1.95522) as HB2 by nra.
    revert HB1 HB2 Hs Hsd.
    generalize (1 + alpha * alpha) (2 * alpha) (s1 - s2) (s1 * c2 - c1 * s2).
    bound_product. }
  revert EP EQ HK1 HK2 HE2.
  generalize (alpha * (1 + alpha) * ((1 - alpha) * (1 - alpha)))
             (alpha * (1 - alpha))
             ((s1 - s2) * (1 + alpha * alpha)
              + 2 * alpha * (s1 * c2 - c1 * s2)).
  intros K1 K2 E2 EP EQ HK1 HK2 HE2.
  assert (- 0.0000129 <= X * W <= 0.0000129) as HX by (rewrite EP; nra).
  assert (- 0.00112128 <= Y * W <= 0.00112128) as HY by (rewrite EQ; nra).
  assert (- 0.00000085 <= X <= 0.00000085) as HX' by (split; nra).
  assert (- 0.0000739 <= Y <= 0.0000739) as HY' by (split; nra).
  apply Rabs_le. split; nra.
Qed.

Lemma gain_bound : 0 < 2 * alpha / (1 + alpha) <= 0.98868.
Proof.
  split.
  - apply Rdiv_lt_0_compat; lra.
  - apply Rmult_le_reg_r with (1 + alpha); [lra |].
    unfold Rdiv. rewrite Rmult_assoc, Rinv_l by lra. lra.
Qed.

(** The invariant of the filter loop, on reals: [x], [x'] are two
    consecutive inputs within [noise] of the sinusoid of amplitude [peak]
    at the angles [th], [th'], [y] the output at [th], [y'] a value within
    1 of what the recurrence gives at [th']. *)
Lemma filter_step (w_prev w th th' x x' y y' : R) :
  is_tone w_prev -> is_tone w ->
  sin th = sin (th' - w) -> cos th = cos (th' - w) ->
  Rabs (x - peak * sin th) <= noise ->
  Rabs (x' - peak * sin th') <= noise ->
  Rabs (y - peak * steady alpha w_prev th - alpha * (x - peak * sin th))
  <= slack ->
  Rabs (y' - alpha * (x + x' - y)) <= 1 ->
  Rabs (y' - peak * steady alpha w th' - alpha * (x' - peak * sin th'))
  <= slack
  /\ Rabs y' <= 32767.
Proof.
  intros Hwp Hw Hsin Hcos Hx Hx' Hy Hy'.
  pose proof alpha_range as Ha.
  pose proof (steady_identity alpha alpha_range_unit w th') as Hid.
  assert (steady alpha w (th' - w) = steady alpha w th) as Hback.
  { unfold steady. now rewrite <- Hsin, <- Hcos. }
  rewrite Hback, <- Hsin in Hid.
  pose proof (steady_switch w_prev w th Hwp Hw) as Hd.
  pose proof (steady_bound alpha alpha_range_unit w th') as Hg.
  pose proof gain_bound as [_ Hg'].
  pose proof (Rle_trans _ _ _ Hg Hg') as HV. clear Hg Hg'.
  apply Rabs_le_inv in Hx, Hx', Hy, Hy', Hd, HV.
  revert Hid Hd HV Hx Hx' Hy Hy'.
  generalize (steady alpha w th') (steady alpha w th)
             (steady alpha w_prev th) (sin th) (sin th').
  intros V' V Vp u u' Hid Hd HV Hx Hx' Hy Hy'.
  unfold peak, noise, slack in *.
  set (A := 0.02 * 32767 * (32767 / 655)) in *.
  assert (32784 < A < 32784.02) as HA by (unfold A; lra).
  set (n := x - A * u) in *. set (n' := x' - A * u') in *.
  set (f := y - A * Vp - alpha * n) in *.
  set (t := y' - alpha * (x + x' - y)) in *.
  assert (y' - A * V' - alpha * n'
          = t + alpha * (1 - alpha) * n - alpha * f - alpha * A * (Vp - V))
    as Ef.
  { unfold t, f, n, n'. replace V' with (alpha * (u' + u) - alpha * V) by lra.
    ring. }
  assert (- 1.1175 <= alpha * (1 - alpha) * n <= 1.1175) as B1.
  { assert (0 <= alpha * (1 - alpha) <= 0.0219) as HK by nra.
    revert HK Hx. generalize (alpha * (1 - alpha)) n. bound_product. }
  assert (- 2.4038 <= alpha * A * (Vp - V) <= 2.4038) as B2.
  { assert (0 <= alpha * A <= 32050) as HK by nra.
    revert HK Hd. generalize (alpha * A) (Vp - V). bound_product. }
  assert (- (205 - 4.58) <= alpha * f <= 205 - 4.58) as B3.
  { revert Hy. generalize f. bound_product. }
  split.
  - rewrite Ef. apply Rabs_le. lra.
  - assert (- 32413 <= A * V' <= 32413) as B4.
    { revert HV. generalize V'. bound_product. }
    assert (- 49.89 <= alpha * n' <= 49.89) as B5.
    { revert Hx'. generalize n'. bound_product. }
    assert (y' = (y' - A * V' - alpha * n') + A * V' + alpha * n') as -> by ring.
    rewrite Ef. apply Rabs_le. lra.
Qed.

End DefaultCutoff.

(** The filter alone does not keep its input range: two samples at full
    scale give an output near twice that. *)
Example highpass_filter_doubles :
  highpass_filter [32767; 32767] 350 = Ok [0; 64066]%Z.
Proof.
  unfold highpass_filter. rewrite default_alpha_ok. cbn [bind fold_left].
  rewrite filter_first_zero. unfold filter_body. cbn [map last app fst].
  pose proof default_alpha_bounds as Ha.
  do 3 f_equal. unfold int.
  destruct (Rle_dec 0 (default_alpha * (32767 + 32767 - 0))) as [_ | H];
    [| exfalso; lra].
  apply Zfloor_eq. lra.
Qed.

(** *** The samples of the synthesized signal *)

Lemma int_error (r : R) : Rabs (IZR (int r) - r) <= 1.
Proof.
  destruct (Rle_dec 0 r) as [H | H].
  - pose proof (int_nonneg r H). apply Rabs_le. lra.
  - apply Rnot_le_lt in H. pose proof (int_neg r H). apply Rabs_le. lra.
Qed.

Lemma raw_sample_bound (theta : R) : (Z.abs (raw_sample theta) <= 655)%Z.
Proof.
  unfold raw_sample.
  pose proof (int_abs_le (0.02 * 32767 * sin theta)) as H.
  pose proof (SIN_bound theta) as Hs.
  assert (Rabs (0.02 * 32767 * sin theta) < 656) as Hb
      by (apply Rabs_def1; lra).
  rewrite <- abs_IZR in H.
  assert (IZR (Z.abs (int (0.02 * 32767 * sin theta))) < IZR 656) as Hlt by lra.
  apply lt_IZR in Hlt. lia.
Qed.

Lemma raw_sample_quarter : raw_sample (PI / 2) = 655%Z.
Proof.
  unfold raw_sample. rewrite sin_PI2. unfold int.
  destruct (Rle_dec 0 (0.02 * 32767 * 1)) as [_ | H]; [| lra].
  apply Zfloor_eq. lra.
Qed.

Lemma raw_sample_zero (theta : R) : sin theta = 0 -> raw_sample theta = 0%Z.
Proof.
  intro H. unfold raw_sample. rewrite H.
  replace (0.02 * 32767 * 0) with 0 by ring. apply int_0.
Qed.

Lemma norm_sample_error (theta : R) :
  Rabs (IZR (norm_sample theta) - peak * sin theta) <= noise.
Proof.
  unfold norm_sample, rescale, raw_sample, peak, noise.
  pose proof (int_error (0.02 * 32767 * sin theta)) as H1.
  pose proof (int_error (IZR (int (0.02 * 32767 * sin theta)) * (32767 / 655)))
    as H2.
  apply Rabs_le_inv in H1, H2.
  revert H1 H2.
  generalize (IZR (int (IZR (int (0.02 * 32767 * sin theta)) * (32767 / 655)))).
  generalize (IZR (int (0.02 * 32767 * sin theta))) (sin theta).
  intros s u x H1 H2. apply Rabs_le. lra.
Qed.

Lemma sin_turns (x : R) (k : Z) : sin (x - IZR k * (2 * PI)) = sin x.
Proof.
  destruct (Z_le_gt_dec 0 k) as [H | H].
  - rewrite <- (sin_period (x - IZR k * (2 * PI)) (Z.to_nat k)).
    rewrite INR_IZR_INZ, Z2Nat.id by exact H. f_equal. ring.
  - replace (x - IZR k * (2 * PI)) with (x + 2 * INR (Z.to_nat (- k)) * PI).
    + apply sin_period.
    + rewrite INR_IZR_INZ, Z2Nat.id, opp_IZR by lia. ring.
Qed.

Lemma cos_turns (x : R) (k : Z) : cos (x - IZR k * (2 * PI)) = cos x.
Proof.
  destruct (Z_le_gt_dec 0 k) as [H | H].
  - rewrite <- (cos_period (x - IZR k * (2 * PI)) (Z.to_nat k)).
    rewrite INR_IZR_INZ, Z2Nat.id by exact H. f_equal. ring.
  - replace (x - IZR k * (2 * PI)) with (x + 2 * INR (Z.to_nat (- k)) * PI).
    + apply cos_period.
    + rewrite INR_IZR_INZ, Z2Nat.id, opp_IZR by lia. ring.
Qed.

Lemma tone_of_bit_tone (bit : Z) : is_tone (tone_omega (tone_of_bit bit)).
Proof. unfold tone_of_bit, is_tone. destruct (bit =? 1)%Z; auto. Qed.

Lemma bit_tone_steps (audio : list Z) (phase : R) (bit : Z) :
  bit_tone (audio, phase) bit
  = (audio ++ map (fun t => raw_sample (angle (tone_of_bit bit) phase t))
                  (range DURATION_PER_BIT),
     next_phase (tone_of_bit bit) phase).
Proof.
  unfold bit_tone, tone_of_bit, generate_continuous_tone.
  destruct (bit =? 1)%Z; reflexivity.
Qed.

Lemma synthesize_steps (bits : list Z) (audio : list Z) (w phase : R) :
  fst (fold_left bit_tone bits (audio, phase))
  = audio ++ map (fun s => raw_sample (snd s)) (bit_steps w phase bits).
Proof.
  revert audio w phase. induction bits as [| bit bits IH]; intros audio w phase.
  - cbn. now rewrite app_nil_r.
  - cbn [fold_left bit_steps]. rewrite bit_tone_steps.
    rewrite (IH _ (tone_omega (tone_of_bit bit))).
    rewrite <- app_assoc. f_equal.
Qed.

(** *** The chain of angles *)

Lemma angle_start (f : Z) (phase : R) : angle f phase 0 = phase.
Proof. unfold angle. field. unfold SAMPLE_RATE. lra. Qed.

Lemma angle_back (f : Z) (phase : R) (t : nat) :
  angle f phase (Z.of_nat (S t)) - tone_omega f = angle f phase (Z.of_nat t).
Proof.
  unfold angle, tone_omega. rewrite Nat2Z.inj_succ, succ_IZR.
  field. unfold SAMPLE_RATE. lra.
Qed.

Lemma block_chained (f : Z) (phase : R) (rest : list (R * R)) (n t0 : nat) :
  is_tone (tone_omega f) ->
  chained (angle f phase (Z.of_nat (t0 + n))) rest ->
  chained (angle f phase (Z.of_nat t0))
          (map (fun t => (tone_omega f, angle f phase t))
               (map Z.of_nat (seq (S t0) n)) ++ rest).
Proof.
  intros Hf. revert t0. induction n as [| n IH]; intros t0 Hrest.
  - rewrite Nat.add_0_r in Hrest. exact Hrest.
  - cbn [seq map app]. constructor.
    + exact Hf.
    + now rewrite angle_back.
    + now rewrite angle_back.
    + apply IH. now rewrite Nat.add_succ_comm.
Qed.

Lemma next_phase_turn (f : Z) (phase : R) :
  exists k : Z,
    next_phase f phase - tone_omega f
    = angle f phase 319 - IZR k * (2 * PI).
Proof.
  unfold next_phase, fmod.
  exists (Zfloor (2 * PI * IZR f * IZR DURATION_PER_BIT / IZR SAMPLE_RATE
                  / (2 * PI))).
  unfold angle, tone_omega.
  change DURATION_PER_BIT with 320%Z. unfold SAMPLE_RATE. field.
Qed.

Lemma bit_steps_chained (bits : list Z) (w_prev phase th : R) :
  is_tone w_prev ->
  sin th = sin (phase - w_prev) -> cos th = cos (phase - w_prev) ->
  chained th (bit_steps w_prev phase bits).
Proof.
  revert w_prev phase th.
  induction bits as [| bit bits IH]; intros w_prev phase th Hw Hs Hc.
  - constructor.
  - cbn [bit_steps]. constructor.
    + exact Hw.
    + now rewrite angle_start.
    + now rewrite angle_start.
    + apply (block_chained _ _ _ 319 0 (tone_of_bit_tone bit)).
      destruct (next_phase_turn (tone_of_bit bit) phase) as (k & Hk).
      apply IH.
      * apply tone_of_bit_tone.
      * rewrite Hk. symmetry. apply sin_turns.
      * rewrite Hk. symmetry. apply cos_turns.
Qed.

(** *** The filter along a chain of angles *)

Lemma last_snoc {A : Type} (l : list A) (x d : A) : last (l ++ [x]) d = x.
Proof. apply last_last. Qed.

Lemma filter_body_snoc (alpha : R) (acc : list Z) (y : Z) (prev sample : R) :
  filter_body alpha (acc ++ [y], prev) sample
  = ((acc ++ [y]) ++ [int (alpha * (prev + sample - IZR y))], sample).
Proof.
  unfold filter_body. rewrite map_app. cbn [map]. now rewrite last_snoc.
Qed.

Lemma tracking_step (w_prev w th th' : R) (y : Z) :
  is_tone w_prev -> is_tone w ->
  sin th = sin (th' - w) -> cos th = cos (th' - w) ->
  tracking default_alpha w_prev th y ->
  let y' := int (default_alpha
                 * (IZR (norm_sample th) + IZR (norm_sample th') - IZR y)) in
  tracking default_alpha w th' y' /\ in_int16 y'.
Proof.
  intros Hwp Hw Hs Hc Hy y'.
  destruct (filter_step default_alpha default_alpha_bounds w_prev w th th'
              (IZR (norm_sample th)) (IZR (norm_sample th')) (IZR y) (IZR y')
              Hwp Hw Hs Hc
              (norm_sample_error th) (norm_sample_error th') Hy
              (int_error _)) as [Ht Hr].
  split; [exact Ht |].
  unfold in_int16. rewrite <- abs_IZR in Hr. now apply le_IZR.
Qed.

Lemma filter_chain_in_range (steps : list (R * R)) :
  forall (th w : R) (acc : list Z) (y : Z),
    chained th steps -> is_tone w ->
    tracking default_alpha w th y ->
    Forall in_int16 (acc ++ [y]) ->
    Forall in_int16
           (fst (fold_left (filter_body default_alpha)
                           (map (fun s => IZR (norm_sample (snd s))) steps)
                           (acc ++ [y], IZR (norm_sample th)))).
Proof.
  induction steps as [| [w' th'] steps IH]; intros th w acc y Hch Hw Ht Hacc.
  - exact Hacc.
  - inversion Hch as [| ? ? ? ? Hw' Hs Hc Hrest]; subst.
    cbn [map fold_left snd]. rewrite filter_body_snoc.
    destruct (tracking_step w w' th th' y Hw Hw' Hs Hc Ht) as [Ht' Hr].
    apply (IH th' w' (acc ++ [y]) _ Hrest Hw' Ht').
    apply Forall_app. split; [exact Hacc | constructor; [exact Hr | constructor]].
Qed.

Lemma tracking_start (w : R) :
  is_tone w -> tracking default_alpha w 0 0.
Proof.
  intro Hw. unfold tracking, norm_sample.
  rewrite (raw_sample_zero 0 sin_0).
  replace (rescale 655 0) with 0%Z
    by (unfold rescale; rewrite Rmult_0_l; symmetry; apply int_0).
  unfold steady. rewrite sin_0, cos_0.
  pose proof default_alpha_bounds as Ha.
  assert (0 < default_alpha < 1) as Ha' by lra.
  pose proof (coef_cos_den default_alpha Ha' w) as HQ.
  pose proof (tone_den_lower default_alpha Ha w Hw) as HD.
  pose proof (SIN_bound w) as Hs.
  revert HQ HD Hs Ha. generalize default_alpha as alpha.
  intro alpha.
  generalize (coef_cos alpha w) (coef_sin alpha w) (gain_den alpha (cos w))
             (sin w).
  intros Q P D s HQ HD Hs Ha.
  unfold peak, slack.
  assert (- 0.0219 <= Q * D <= 0.0219) as HQD.
  { rewrite HQ. assert (0 <= alpha * (1 - alpha) <= 0.0219) as HK by nra.
    revert HK. generalize (alpha * (1 - alpha)). intros; nra. }
  assert (- 0.006 <= Q <= 0.006) as HQ' by (split; nra).
  apply Rabs_le. lra.
Qed.

(** *** The encoder as a whole *)

Lemma bitstream_starts_zero (packet : list Z) :
  exists bits, generate_bitstream packet = 0%Z :: bits.
Proof.
  rewrite generate_bitstream_layout.
  change preamble_bits with (0%Z :: tl preamble_bits).
  eexists. reflexivity.
Qed.

Lemma quarter_angle : angle SPACE_TONE 0 15 = PI / 2.
Proof. unfold angle, SPACE_TONE, SAMPLE_RATE. field. Qed.

Lemma synthesized_max (bits : list Z) :
  is_max_abs 655 (fst (synthesize (0%Z :: bits))).
Proof.
  unfold synthesize.
  rewrite (synthesize_steps _ [] (tone_omega SPACE_TONE) 0). cbn [app].
  split.
  - exists 655%Z. split; [| reflexivity].
    rewrite <- raw_sample_quarter, <- quarter_angle.
    cbn [bit_steps]. change (tone_of_bit 0) with SPACE_TONE.
    cbn [map snd]. right. rewrite map_app. apply in_or_app. left.
    rewrite !map_map. cbn [snd].
    apply (in_map (fun t => raw_sample (angle SPACE_TONE 0 (Z.of_nat t)))
                  (seq 1 319) 15%nat).
    apply in_seq. lia.
  - intros s Hs. apply in_map_iff in Hs as (st & <- & _).
    apply raw_sample_bound.
Qed.

Lemma sample_bytes_in_range (audio : list Z) :
  Forall in_int16 audio ->
  exists data, sample_bytes audio = Ok data
               /\ length data = (2 * length audio)%nat.
Proof.
  induction 1 as [| s audio Hs _ (data & Hd & Hl)].
  - exists []. split; reflexivity.
  - cbn [sample_bytes]. unfold to_bytes_2_little_signed.
    unfold in_int16 in Hs.
    destruct ((-32768 <=? s)%Z && (s <=? 32767)%Z) eqn:E.
    + cbn [bind]. rewrite Hd. cbn [bind].
      eexists. split; [reflexivity |]. cbn [app length]. lia.
    + apply andb_false_iff in E as [E | E];
        [apply Z.leb_gt in E | apply Z.leb_gt in E]; lia.
Qed.

Lemma afsk_encode_filtered (packet : list Z) :
  exists audio,
    afsk_encode packet = Ok audio
    /\ Forall in_int16 audio
    /\ length audio = (320 * (66 + 8 * length packet))%nat.
Proof.
  destruct (bitstream_starts_zero packet) as (bits & Hbits).
  pose proof (bitstream_length packet) as Hlen.
  unfold afsk_encode, normalize. rewrite Hbits in *.
  rewrite (max_abs_of_max 655 _ (synthesized_max bits)). cbn [bind].
  change (655 >? 0)%Z with true. cbv iota.
  fold (rescale 655).
  unfold highpass_filter. rewrite default_alpha_ok. cbn [bind].
  eexists. split; [reflexivity | split].
  - unfold synthesize.
    rewrite (synthesize_steps _ [] (tone_omega SPACE_TONE) 0). cbn [app].
    rewrite !map_map.
    change (fun x => IZR (rescale 655 (raw_sample (snd x))))
      with (fun s : R * R => IZR (norm_sample (snd s))).
    pose proof (bit_steps_chained (0%Z :: bits) (tone_omega SPACE_TONE) 0
                  (0 - tone_omega SPACE_TONE)
                  (or_introl eq_refl) eq_refl eq_refl) as Hch.
    cbn [bit_steps] in *.
    inversion Hch as [| ? ? ? ? Hw _ _ Hrest]; subst. clear Hch.
    cbn [map fold_left snd]. rewrite filter_first_zero.
    rewrite angle_start in *.
    apply (filter_chain_in_range _ 0 (tone_omega SPACE_TONE) [] 0%Z Hrest Hw).
    + apply tracking_start, Hw.
    + constructor; [| constructor]. unfold in_int16. cbn. lia.
  - rewrite filter_fold_length, !length_map, synthesize_length, Hlen.
    cbn [length]. lia.
Qed.

(** C6: for every packet [afsk_encode] returns, and every sample it
    returns, after normalisation and the filter, is at most 32767 in
    absolute value; so the 16-bit signed serialisation of [save_to_wav]
    raises no overflow, and the file it writes is mono, 16 bit, 96000 Hz,
    with two bytes for each of the [320 * (66 + 8 * len(packet))] samples,
    hence not empty. *)
Theorem afsk_encode_in_int16 (packet : list Z) :
  exists audio wav,
    afsk_encode packet = Ok audio
    /\ Forall (fun s => (Z.abs s <= 32767)%Z) audio
    /\ length audio = (320 * (66 + 8 * length packet))%nat
    /\ save_to_wav audio = Ok wav
    /\ nchannels wav = 1%Z /\ sampwidth wav = 2%Z /\ framerate wav = 96000%Z
    /\ length (frames wav) = (2 * length audio)%nat
    /\ frames wav <> [].
Proof.
  destruct (afsk_encode_filtered packet) as (audio & He & Hr & Hl).
  destruct (sample_bytes_in_range audio Hr) as (data & Hd & Hdl).
  exists audio. eexists.
  split; [exact He | split; [exact Hr | split; [exact Hl |]]].
  unfold save_to_wav. rewrite Hd. cbn [bind].
  split; [reflexivity |]. cbn [nchannels sampwidth framerate frames].
  repeat (split; [reflexivity |]).
  split; [exact Hdl |].
  intros ->. cbn [length] in Hdl. lia.
Qed.

(** ** Float rounding *)

Local Open Scope R_scope.

Lemma pow2_pos (z : Z) : 0 < powerRZ 2 z.
Proof. apply powerRZ_lt. lra. Qed.

Lemma ln_2_pos : 0 < ln 2.
Proof. pose proof ln_lt_2. lra. Qed.

Lemma pow2_exp (z : Z) : powerRZ 2 z = exp (IZR z * ln 2).
Proof. rewrite powerRZ_Rpower by lra. reflexivity. Qed.

Lemma pow2_lt (j k : Z) : (j < k)%Z -> powerRZ 2 j < powerRZ 2 k.
Proof.
  intro H. rewrite !pow2_exp. apply exp_increasing.
  apply Rmult_lt_compat_r; [apply ln_2_pos | now apply IZR_lt].
Qed.

Lemma pow2_le (j k : Z) : (j <= k)%Z -> powerRZ 2 j <= powerRZ 2 k.
Proof.
  intro H. destruct (Z.eq_dec j k) as [-> | Hne]; [lra |].
  apply Rlt_le, pow2_lt. lia.
Qed.

Lemma pow2_lt_inv (j k : Z) : powerRZ 2 j < powerRZ 2 k -> (j < k)%Z.
Proof.
  intro H. destruct (Z_lt_le_dec j k) as [Hlt | Hle]; [exact Hlt |].
  pose proof (pow2_le k j Hle). lra.
Qed.

Lemma pow2_IZR (k : Z) : (0 <= k)%Z -> powerRZ 2 k = IZR (2 ^ k).
Proof.
  intro H. rewrite <- (Z2Nat.id k H), <- pow_powerRZ, <- pow_IZR.
  reflexivity.
Qed.

Lemma pow2_succ (k : Z) : powerRZ 2 (k + 1) = 2 * powerRZ 2 k.
Proof. rewrite powerRZ_add by lra. rewrite powerRZ_1. ring. Qed.

Lemma pow2_split (j k : Z) : powerRZ 2 (j - k) = powerRZ 2 j / powerRZ 2 k.
Proof.
  unfold Z.sub. rewrite powerRZ_add by lra. now rewrite powerRZ_neg'.
Qed.

(** *** Rounding to an integer *)

Lemma round_half_even_IZR (z : Z) : round_half_even (IZR z) = z.
Proof.
  unfold round_half_even. rewrite ZfloorZ.
  destruct (Rlt_dec (IZR z - IZR z) (1 / 2)) as [_ | H]; [reflexivity | lra].
Qed.

Lemma round_half_even_le (x : R) (n : Z) :
  x <= IZR n -> (round_half_even x <= n)%Z.
Proof.
  intro H. pose proof (Zfloor_bound x) as [Hlo Hhi].
  assert (Zfloor x <= n)%Z as Hf by (apply le_IZR; lra).
  unfold round_half_even.
  destruct (Rlt_dec (x - IZR (Zfloor x)) (1 / 2)) as [_ | Hd]; [exact Hf |].
  assert (Zfloor x < n)%Z.
  { apply lt_IZR. lra. }
  destruct (Rlt_dec (1 / 2) (x - IZR (Zfloor x)));
    [| destruct (Z.even (Zfloor x))]; lia.
Qed.

Lemma round_half_even_ge (x : R) (n : Z) :
  IZR n <= x -> (n <= round_half_even x)%Z.
Proof.
  intro H. pose proof (Zfloor_lub n x H) as Hf.
  unfold round_half_even.
  destruct (Rlt_dec (x - IZR (Zfloor x)) (1 / 2)); [exact Hf |].
  destruct (Rlt_dec (1 / 2) (x - IZR (Zfloor x)));
    [| destruct (Z.even (Zfloor x))]; lia.
Qed.

Lemma round_half_even_close (x : R) :
  Rabs (IZR (round_half_even x) - x) <= 1 / 2.
Proof.
  pose proof (Zfloor_bound x) as [Hlo Hhi].
  unfold round_half_even.
  destruct (Rlt_dec (x - IZR (Zfloor x)) (1 / 2)) as [H | H].
  - apply Rabs_le. lra.
  - destruct (Rlt_dec (1 / 2) (x - IZR (Zfloor x))) as [H' | H'].
    + rewrite plus_IZR. apply Rabs_le. lra.
    + destruct (Z.even (Zfloor x)); [| rewrite plus_IZR]; apply Rabs_le; lra.
Qed.

Lemma round_half_even_near (x : R) (z : Z) :
  IZR z - 1 / 2 < x < IZR z + 1 / 2 -> round_half_even x = z.
Proof.
  intros [Hlo Hhi].
  pose proof (round_half_even_close x) as Hc. apply Rabs_le_inv in Hc.
  assert (z - 1 < round_half_even x < z + 1)%Z as [H1 H2].
  { split; apply lt_IZR; [rewrite minus_IZR | rewrite plus_IZR]; lra. }
  lia.
Qed.

(** *** The binade of a number *)

Lemma float_exponent_bounds (x : R) :
  x <> 0 ->
  (-1022 <= float_exponent x)%Z
  /\ Rabs x < powerRZ 2 (float_exponent x + 1)
  /\ ((-1022 < float_exponent x)%Z -> powerRZ 2 (float_exponent x) <= Rabs x).
Proof.
  intro Hx. pose proof (Rabs_pos_lt x Hx) as Ha.
  pose proof ln_2_pos as H2.
  unfold float_exponent.
  pose proof (Zfloor_bound (ln (Rabs x) / ln 2)) as [Hlo Hhi].
  set (f := Zfloor (ln (Rabs x) / ln 2)) in *.
  assert (IZR f * ln 2 <= ln (Rabs x)) as Hlo'.
  { apply Rmult_le_compat_r with (r := ln 2) in Hlo; [| lra].
    replace (ln (Rabs x) / ln 2 * ln 2) with (ln (Rabs x)) in Hlo
      by (field; lra).
    exact Hlo. }
  assert (ln (Rabs x) < IZR (f + 1) * ln 2) as Hhi'.
  { rewrite plus_IZR.
    apply Rmult_lt_compat_r with (r := ln 2) in Hhi; [| lra].
    replace (ln (Rabs x) / ln 2 * ln 2) with (ln (Rabs x)) in Hhi
      by (field; lra).
    exact Hhi. }
  assert (powerRZ 2 f <= Rabs x) as Hp.
  { rewrite pow2_exp. rewrite <- (exp_ln (Rabs x) Ha) at 1.
    destruct Hlo' as [Hlt | <-]; [apply Rlt_le, exp_increasing, Hlt | lra]. }
  assert (Rabs x < powerRZ 2 (f + 1)) as Hq.
  { rewrite pow2_exp. rewrite <- (exp_ln (Rabs x) Ha) at 1.
    apply exp_increasing, Hhi'. }
  split; [lia | split].
  - eapply Rlt_le_trans; [exact Hq |]. apply pow2_le. lia.
  - intro Hm. replace (Z.max (-1022) f) with f by lia. exact Hp.
Qed.

Lemma float_exponent_eq (x : R) (k : Z) :
  (-1022 <= k)%Z ->
  powerRZ 2 k <= Rabs x < powerRZ 2 (k + 1) -> float_exponent x = k.
Proof.
  intros Hk [Hlo Hhi].
  pose proof (pow2_pos k) as Hpk.
  assert (x <> 0) as Hx.
  { intros ->. rewrite Rabs_R0 in Hlo. lra. }
  destruct (float_exponent_bounds x Hx) as (He & Hup & Hdown).
  assert (k < float_exponent x + 1)%Z as H1 by (apply pow2_lt_inv; lra).
  destruct (Z.eq_dec (float_exponent x) k) as [E | Hne]; [exact E |].
  assert (-1022 < float_exponent x)%Z as Hm by lia.
  specialize (Hdown Hm).
  assert (float_exponent x < k + 1)%Z by (apply pow2_lt_inv; lra).
  lia.
Qed.

Lemma float_exponent_below (x : R) (k : Z) :
  (-1021 <= k)%Z -> Rabs x < powerRZ 2 k -> x <> 0 ->
  (float_exponent x <= k - 1)%Z.
Proof.
  intros Hk Hlt Hx.
  destruct (float_exponent_bounds x Hx) as (He & _ & Hdown).
  destruct (Z_lt_le_dec (-1022) (float_exponent x)) as [Hm | Hm]; [| lia].
  specialize (Hdown Hm).
  assert (float_exponent x < k)%Z by (apply pow2_lt_inv; lra).
  lia.
Qed.

(** *** Rounding to a float *)

Lemma round_float_0 : round_float 0 = 0.
Proof.
  unfold round_float. rewrite Rmult_0_l, (round_half_even_IZR 0).
  unfold Rdiv. apply Rmult_0_l.
Qed.

(** The value of a rounding, from the binade and the nearest integer
    multiple of the unit in the last place. *)
Lemma round_float_eval (x : R) (k z : Z) :
  (-1022 <= k)%Z ->
  powerRZ 2 k <= Rabs x < powerRZ 2 (k + 1) ->
  IZR z - 1 / 2 < x * powerRZ 2 (52 - k) < IZR z + 1 / 2 ->
  round_float x = IZR z / powerRZ 2 (52 - k).
Proof.
  intros Hk Hb Hz. unfold round_float.
  rewrite (float_exponent_eq x k Hk Hb).
  now rewrite (round_half_even_near _ z Hz).
Qed.

Lemma round_float_nonneg (x : R) : 0 <= x -> 0 <= round_float x.
Proof.
  intro H. unfold round_float.
  pose proof (pow2_pos (52 - float_exponent x)) as Hs.
  apply Rmult_le_pos; [| apply Rlt_le, Rinv_0_lt_compat, Hs].
  apply (IZR_le 0). apply round_half_even_ge.
  apply Rmult_le_pos; lra.
Qed.

(** Rounding does not pass an integer below [2 ^ 53]. *)
Lemma round_float_le_int (x : R) (n : Z) :
  0 <= x <= IZR n -> (n < 2 ^ 53)%Z -> round_float x <= IZR n.
Proof.
  intros [H0 Hn] Hbig.
  destruct (Req_dec x 0) as [-> | Hx]; [rewrite round_float_0; lra |].
  assert (float_exponent x <= 52)%Z as He.
  { replace 52%Z with (53 - 1)%Z by lia.
    apply float_exponent_below; [lia | | exact Hx].
    rewrite Rabs_pos_eq by lra. rewrite pow2_IZR by lia.
    apply IZR_lt in Hbig. lra. }
  unfold round_float.
  set (sh := (52 - float_exponent x)%Z).
  assert (0 <= sh)%Z as Hsh by (unfold sh; lia).
  pose proof (pow2_pos sh) as Hs.
  apply Rmult_le_reg_r with (powerRZ 2 sh); [exact Hs |].
  unfold Rdiv. rewrite Rmult_assoc, Rinv_l, Rmult_1_r by lra.
  rewrite (pow2_IZR sh Hsh) in *. rewrite <- mult_IZR.
  apply IZR_le, round_half_even_le. rewrite mult_IZR.
  apply Rmult_le_compat_r; lra.
Qed.

(** The rounding error below [2 ^ k]: half a unit in the last place. *)
Lemma round_float_error (x : R) (k : Z) :
  (-1021 <= k)%Z -> Rabs x < powerRZ 2 k ->
  Rabs (round_float x - x) <= powerRZ 2 (k - 54).
Proof.
  intros Hk Hlt.
  destruct (Req_dec x 0) as [-> | Hx].
  { rewrite round_float_0, Rminus_0_r, Rabs_R0.
    apply Rlt_le, pow2_pos. }
  pose proof (float_exponent_below x k Hk Hlt Hx) as He.
  unfold round_float.
  set (sh := (52 - float_exponent x)%Z).
  pose proof (pow2_pos sh) as Hs.
  pose proof (round_half_even_close (x * powerRZ 2 sh)) as Hc.
  replace (IZR (round_half_even (x * powerRZ 2 sh)) / powerRZ 2 sh - x)
    with ((IZR (round_half_even (x * powerRZ 2 sh)) - x * powerRZ 2 sh)
          / powerRZ 2 sh) by (field; lra).
  unfold Rdiv at 1. rewrite Rabs_mult, (Rabs_pos_eq (/ powerRZ 2 sh))
    by (apply Rlt_le, Rinv_0_lt_compat, Hs).
  assert (/ powerRZ 2 sh <= 2 * powerRZ 2 (k - 54)) as Hu.
  { rewrite <- pow2_succ, <- powerRZ_neg'. apply pow2_le. unfold sh. lia. }
  pose proof (Rabs_pos (IZR (round_half_even (x * powerRZ 2 sh))
                        - x * powerRZ 2 sh)) as Hp.
  assert (0 < / powerRZ 2 sh) as Hi by (apply Rinv_0_lt_compat, Hs).
  revert Hc Hu Hp Hi.
  generalize (powerRZ 2 (k - 54))
             (Rabs (IZR (round_half_even (x * powerRZ 2 sh))
                    - x * powerRZ 2 sh))
             (/ powerRZ 2 sh).
  bound_product.
Qed.

(** An integer below [2 ^ 53] is a float. *)
Lemma round_float_IZR (n : Z) :
  (Z.abs n < 2 ^ 53)%Z -> round_float (IZR n) = IZR n.
Proof.
  intro Hn.
  destruct (Z.eq_dec n 0) as [-> | Hne]; [apply round_float_0 |].
  assert (IZR n <> 0) as Hx by (intro E; apply eq_IZR in E; lia).
  assert (float_exponent (IZR n) <= 52)%Z as He.
  { replace 52%Z with (53 - 1)%Z by lia.
    apply float_exponent_below; [lia | | exact Hx].
    rewrite <- abs_IZR, pow2_IZR by lia. now apply IZR_lt. }
  unfold round_float.
  set (sh := (52 - float_exponent (IZR n))%Z).
  assert (0 <= sh)%Z as Hsh by (unfold sh; lia).
  pose proof (pow2_pos sh) as Hs.
  rewrite (pow2_IZR sh Hsh) in *.
  rewrite <- mult_IZR, round_half_even_IZR, mult_IZR. field. lra.
Qed.

Local Close Scope R_scope.

(** ** The normalisation step, as the floats compute it *)

Local Open Scope R_scope.

(** The quotient [32767 / 655] as a float. *)
Lemma quotient_655 :
  round_float (32767 / 655) = 7040527146471805 / powerRZ 2 47.
Proof.
  apply (round_float_eval (32767 / 655) 5 7040527146471805); [lia | |].
  - rewrite Rabs_pos_eq by lra. rewrite !pow2_IZR by lia.
    change (2 ^ 5)%Z with 32%Z. change (2 ^ (5 + 1))%Z with 64%Z. lra.
  - change (52 - 5)%Z with 47%Z. rewrite pow2_IZR by lia.
    change (2 ^ 47)%Z with 140737488355328%Z. lra.
Qed.

(** The loudest sample of [afsk_encode] falls short of full scale: the
    float product [655 * (32767 / 655)] lies just below 32767. *)
Lemma rescale_float_peak :
  rescale_float 655 655 = 32766%Z /\ rescale_float 655 (-655) = (-32766)%Z.
Proof.
  unfold rescale_float. rewrite quotient_655.
  rewrite (round_float_eval _ 14 9006924376834047),
          (round_float_eval _ 14 (-9006924376834047)).
  - change (52 - 14)%Z with 38%Z. rewrite pow2_IZR by lia.
    change (2 ^ 38)%Z with 274877906944%Z. unfold int. split.
    + destruct (Rle_dec 0 (9006924376834047 / 274877906944)) as [_ | H];
        [| lra].
      apply Zfloor_eq. lra.
    + destruct (Rle_dec 0 (-9006924376834047 / 274877906944)) as [H | _];
        [lra |].
      apply Zceil_eq. lra.
  - lia.
  - rewrite Rabs_left; rewrite !pow2_IZR by lia;
      change (2 ^ 47)%Z with 140737488355328%Z;
      change (2 ^ 14)%Z with 16384%Z; change (2 ^ (14 + 1))%Z with 32768%Z;
      lra.
  - change (52 - 14)%Z with 38%Z. rewrite !pow2_IZR by lia.
    change (2 ^ 47)%Z with 140737488355328%Z.
    change (2 ^ 38)%Z with 274877906944%Z. lra.
  - lia.
  - rewrite Rabs_pos_eq; rewrite !pow2_IZR by lia;
      change (2 ^ 47)%Z with 140737488355328%Z;
      change (2 ^ 14)%Z with 16384%Z; change (2 ^ (14 + 1))%Z with 32768%Z;
      lra.
  - change (52 - 14)%Z with 38%Z. rewrite !pow2_IZR by lia.
    change (2 ^ 47)%Z with 140737488355328%Z.
    change (2 ^ 38)%Z with 274877906944%Z. lra.
Qed.

(** The rounded quotient and product stay within [2 ^ -24] of the exact
    ones on samples of 16 bits. *)
Lemma rescale_float_product (m s : Z) :
  (0 < m <= 32767)%Z -> (Z.abs s <= m)%Z ->
  Rabs (round_float (IZR s * round_float (32767 / IZR m))
        - IZR s * (32767 / IZR m)) <= / 1000000
  /\ Rabs (IZR s * (32767 / IZR m)) <= 32767.
Proof.
  intros [Hm0 Hm1] Hs.
  assert (1 <= IZR m) as Hm by (apply (IZR_le 1); lia).
  apply IZR_lt in Hm0. apply IZR_le in Hm1. apply IZR_le in Hs.
  rewrite abs_IZR in Hs.
  set (c := 32767 / IZR m).
  assert (1 <= c <= 32767) as Hc.
  { unfold c. split.
    - apply Rmult_le_reg_r with (IZR m); [lra |].
      unfold Rdiv. rewrite Rmult_assoc, Rinv_l by lra. lra.
    - apply Rmult_le_reg_r with (IZR m); [lra |].
      unfold Rdiv. rewrite Rmult_assoc, Rinv_l by lra. lra. }
  assert (Rabs (IZR s * c) <= 32767) as Hsc.
  { rewrite Rabs_mult, (Rabs_pos_eq c) by lra.
    apply Rle_trans with (IZR m * c).
    - apply Rmult_le_compat_r; lra.
    - unfold c. replace (IZR m * (32767 / IZR m)) with 32767 by (field; lra).
      lra. }
  assert (Rabs (round_float c - c) <= powerRZ 2 (15 - 54)) as Hq.
  { apply round_float_error; [lia |].
    rewrite Rabs_pos_eq by lra. rewrite pow2_IZR by lia.
    change (2 ^ 15)%Z with 32768%Z. lra. }
  change (15 - 54)%Z with (Z.opp 39) in Hq. rewrite powerRZ_neg' in Hq.
  rewrite pow2_IZR in Hq by lia.
  change (2 ^ 39)%Z with 549755813888%Z in Hq.
  set (q := round_float c) in *.
  assert (Rabs (IZR s * q - IZR s * c) <= 32767 * / 549755813888) as Hd.
  { rewrite <- Rmult_minus_distr_l, Rabs_mult.
    pose proof (Rabs_pos (IZR s)). pose proof (Rabs_pos (q - c)).
    apply Rmult_le_compat; lra. }
  assert (Rabs (IZR s * q) < 32768) as Hsq.
  { replace (IZR s * q) with ((IZR s * q - IZR s * c) + IZR s * c) by ring.
    eapply Rle_lt_trans; [apply Rabs_triang |]. lra. }
  assert (Rabs (round_float (IZR s * q) - IZR s * q) <= powerRZ 2 (15 - 54))
    as Hp.
  { apply round_float_error; [lia |]. rewrite pow2_IZR by lia.
    change (2 ^ 15)%Z with 32768%Z. exact Hsq. }
  change (15 - 54)%Z with (Z.opp 39) in Hp. rewrite powerRZ_neg' in Hp.
  rewrite pow2_IZR in Hp by lia.
  change (2 ^ 39)%Z with 549755813888%Z in Hp.
  split; [| exact Hsc].
  replace (round_float (IZR s * q) - IZR s * c)
    with ((round_float (IZR s * q) - IZR s * q)
          + (IZR s * q - IZR s * c)) by ring.
  eapply Rle_trans; [apply Rabs_triang |]. lra.
Qed.


Local Close Scope R_scope.


(** * Further properties *)

Local Open Scope Z_scope.

(** ** The checksum closes on itself *)

Lemma holds_from_spec (P : Z -> bool) (n : nat) :
  forall z, holds_from P n z = true ->
            forall x, z <= x < z + Z.of_nat n -> P x = true.
Proof.
  induction n as [| n IH]; intros z H x Hx.
  - cbn in Hx. lia.
  - cbn [holds_from] in H. apply andb_true_iff in H as [H0 H1].
    destruct (Z.eq_dec x z) as [-> | Hne]; [exact H0 |].
    apply (IH (z + 1) H1). lia.
Qed.

(** From any 16-bit register, feeding the two bytes [to_bytes(2, 'little')]
    makes of the register XOR 0xFFFF leaves the register at 0xF0B8; by
    running all 65536 registers. *)
Lemma fcs_closes_all (reg : Z) :
  0 <= reg < 65536 ->
  crc_byte (crc_byte reg (Z.land (Z.lxor reg 0xFFFF) 0xFF))
           (Z.shiftr (Z.lxor reg 0xFFFF) 8) = 0xF0B8.
Proof.
  intro H. apply Z.eqb_eq.
  refine (holds_from_spec
            (fun r => crc_byte (crc_byte r (Z.land (Z.lxor r 0xFFFF) 0xFF))
                               (Z.shiftr (Z.lxor r 0xFFFF) 8) =? 0xF0B8)
            (Z.to_nat 65536) 0 _ reg _).
  - vm_compute. reflexivity.
  - rewrite Z2Nat.id; lia.
Qed.

Lemma crc_register_range (data : list Z) (reg : Z) :
  forallb in_byte data = true -> 0 <= reg < 65536 ->
  0 <= fold_left crc_byte data reg < 65536.
Proof.
  revert reg. induction data as [| b data IH]; intros reg Hd Hr.
  - exact Hr.
  - cbn [forallb] in Hd. apply andb_true_iff in Hd as [Hb Hd].
    cbn [fold_left]. apply IH; [exact Hd |].
    apply crc_byte_range; [exact Hr | now apply in_byte_iff].
Qed.

Lemma fold_left_pair {A B : Type} (f : A -> B -> A) (a b : B) (r : A) :
  fold_left f [a; b] r = f (f r a) b.
Proof. reflexivity. Qed.

Lemma crc_residue (data : list Z) :
  forallb in_byte data = true ->
  crc16_ccitt (data ++ [Z.land (crc16_ccitt data) 0xFF;
                        Z.shiftr (crc16_ccitt data) 8]) = 0x0F47.
Proof.
  intro Hd.
  assert (0 <= fold_left crc_byte data 0xFFFF < 65536) as Hr
      by (apply crc_register_range; [exact Hd | lia]).
  pose proof (fcs_closes_all _ Hr) as Hc.
  unfold crc16_ccitt. rewrite fold_left_app, fold_left_pair.
  exact (f_equal (fun r => Z.lxor r 65535) Hc).
Qed.

(** X1: the checksum of a byte sequence followed by its own checksum, low
    byte first as [ax25_frame] appends it, is the constant 0x0F47 (the
    register ends at 0xF0B8): a receiver can check a frame without
    knowing where the checksum starts. *)
Theorem crc16_ccitt_residue (data : list Z) :
  forallb in_byte data = true ->
  let crc := crc16_ccitt data in
  0 <= crc < 65536
  /\ crc16_ccitt (data ++ [Z.land crc 0xFF; Z.shiftr crc 8]) = 0x0F47.
Proof.
  intro Hd. cbn zeta. split.
  - apply crc16_ccitt_range, Hd.
  - apply crc_residue, Hd.
Qed.

Lemma crc16_ccitt_residue_witness :
  forallb in_byte check_input = true
  /\ let crc := crc16_ccitt check_input in
     0 <= crc < 65536
     /\ crc16_ccitt (check_input ++ [Z.land crc 0xFF; Z.shiftr crc 8]) = 0x0F47.
Proof.
  split; [reflexivity |].
  exact (crc16_ccitt_residue check_input eq_refl).
Defined.

(** ** Address fields and frames *)

Lemma ssid_byte_range (ssid : Z) :
  in_byte (Z.lor (Z.shiftl ssid 1) 0x60) = (0 <=? ssid) && (ssid <? 128).
Proof.
  rewrite Z.shiftl_mul_pow2 by lia. change (2 ^ 1) with 2.
  apply eq_true_iff_eq. rewrite in_byte_iff, andb_true_iff, Z.leb_le, Z.ltb_lt.
  split.
  - intros [Hlo Hhi]. apply Z.lor_nonneg in Hlo as [Hs _].
    split; [lia |].
    destruct (Z_lt_le_dec ssid 128) as [? | Hge]; [assumption | exfalso].
    assert (8 <= Z.log2 (Z.lor (ssid * 2) 96)) as Hl.
    { rewrite Z.log2_lor by lia.
      apply Z.max_le_iff. left. apply Z.log2_le_pow2; lia. }
    apply Z.log2_le_pow2 in Hl; [lia |].
    assert (Z.lor (ssid * 2) 96 <> 0)
      by (intro E; apply Z.lor_eq_0_iff in E; lia).
    assert (0 <= Z.lor (ssid * 2) 96) by (apply Z.lor_nonneg; lia). lia.
  - intros [Hlo Hhi]. apply (lor_bound 8); lia.
Qed.

Lemma ssid_reads_back (ssid : Z) :
  0 <= ssid < 16 ->
  Z.land (Z.shiftr (Z.lor (Z.shiftl ssid 1) 0x60) 1) 0x0F = ssid.
Proof.
  intro H. apply Z.eqb_eq.
  refine (holds_from_spec
            (fun s => Z.land (Z.shiftr (Z.lor (Z.shiftl s 1) 0x60) 1) 0x0F =? s)
            16 0 _ ssid _); [reflexivity | lia].
Qed.

Lemma shift_back (c : Z) : Z.shiftr (Z.shiftl c 1) 1 = c.
Proof. rewrite Z.shiftr_shiftl_l by lia. apply Z.shiftl_0_r. Qed.

Lemma low_byte_range (v : Z) : 0 <= Z.land v 0xFF < 256.
Proof.
  change 0xFF with (Z.ones 8). rewrite Z.land_ones by lia.
  apply Z.mod_pos_bound. lia.
Qed.

Lemma high_byte_range (v : Z) : 0 <= v < 65536 -> 0 <= Z.shiftr v 8 < 256.
Proof.
  intro H. rewrite Z.shiftr_div_pow2 by lia. change (2 ^ 8) with 256.
  split; [apply Z.div_pos; lia | apply Z.div_lt_upper_bound; lia].
Qed.

Section FrameLayout.

Variable uu : Z -> list Z.

(** X2: given an ASCII callsign [encode_callsign] returns exactly when the
    SSID is in 0..127, and raises [ValueError] otherwise; what it returns
    is 7 bytes, from which the six upper-cased, space-padded characters
    are read back by a shift right, and an SSID in 0..15 from bits 1 to 4
    of the seventh byte. *)
Theorem encode_callsign_address (callsign : pystr) (ssid : Z) :
  all_ascii callsign = true ->
  encode_callsign uu callsign ssid
  = (if (0 <=? ssid) && (ssid <? 128)
     then Ok (map (fun c => Z.shiftl c 1) (callsign_chars uu callsign)
              ++ [Z.lor (Z.shiftl ssid 1) 0x60])
     else Raise ValueError)
  /\ (forall enc,
        encode_callsign uu callsign ssid = Ok enc ->
        length enc = 7%nat
        /\ map (fun b => Z.shiftr b 1) (firstn 6 enc)
           = callsign_chars uu callsign
        /\ all_ascii (callsign_chars uu callsign) = true
        /\ (ssid < 16 -> Z.land (Z.shiftr (nth 6 enc 0) 1) 0x0F = ssid)).
Proof.
  intro Hascii.
  destruct (ascii_callsign_ok uu callsign Hascii) as [Hok Hlen].
  unfold address_bytes in Hlen. rewrite length_app, length_map in Hlen.
  cbn [length] in Hlen.
  assert (length (callsign_chars uu callsign) = 6%nat) as Hsix by lia.
  assert (encode_callsign uu callsign ssid
          = (if (0 <=? ssid) && (ssid <? 128)
             then Ok (map (fun c => Z.shiftl c 1) (callsign_chars uu callsign)
                      ++ [Z.lor (Z.shiftl ssid 1) 0x60])
             else Raise ValueError)) as Henc.
  { unfold encode_callsign. rewrite bytearray_spec, forallb_map.
    rewrite (forallb_ext _ is_ascii _ shifted_in_byte).
    unfold callsign_ok, all_ascii in Hok. rewrite Hok. cbn [bind].
    rewrite byte_of_spec, ssid_byte_range.
    destruct ((0 <=? ssid) && (ssid <? 128)); reflexivity. }
  split; [exact Henc |].
  intros enc He. rewrite Henc in He.
  destruct ((0 <=? ssid) && (ssid <? 128)) eqn:Hs; [| discriminate He].
  injection He as <-.
  apply andb_true_iff in Hs as [Hs0 _]. apply Z.leb_le in Hs0.
  split; [| split; [| split]].
  - rewrite length_app, length_map, Hsix. reflexivity.
  - rewrite firstn_app, length_map, Hsix, Nat.sub_diag, firstn_O, app_nil_r.
    rewrite firstn_all2 by (rewrite length_map; lia).
    rewrite map_map. rewrite <- (map_id (callsign_chars uu callsign)) at 2.
    apply map_ext. intro c. apply shift_back.
  - exact Hok.
  - intro Hlt. rewrite app_nth2 by (rewrite length_map; lia).
    rewrite length_map, Hsix. cbn [Nat.sub nth].
    apply ssid_reads_back. lia.
Qed.

Lemma ax25_body_ascii (source destination : pystr) (path : list pystr)
      (info : pystr) :
  forallb all_ascii (destination :: source :: path) = true ->
  all_ascii info = true ->
  exists front,
    let frame := (front ++ [0x61]) ++ [0x03; 0xF0] ++ info in
    ax25_body uu source destination path info
    = Ok (frame ++ [Z.land (crc16_ccitt frame) 0xFF;
                    Z.shiftr (crc16_ccitt frame) 8])
    /\ length (front ++ [0x61]) = (7 * (2 + length path))%nat
    /\ forallb in_byte frame = true.
Proof.
  intros Hcalls Hinfo.
  destruct (ascii_calls_ok uu _ Hcalls) as [Hok Hlen].
  destruct (raw_addresses_snoc uu (destination :: source :: path))
    as (front' & Hraw' & _ & Hbytes); [congruence |].
  destruct (ax25_body_spec uu source destination path info)
    as (front & Hraw & _ & Hbody).
  assert (front' = front) as ->.
  { rewrite Hraw in Hraw'. now apply app_inj_tail in Hraw' as [-> _]. }
  exists front. cbn zeta. rewrite Hbody, Hok, Hinfo.
  split; [reflexivity | split].
  - rewrite Hraw in Hlen. rewrite !length_app in *. cbn [length] in *. lia.
  - rewrite Hok, Hraw, forallb_app in Hbytes.
    apply andb_true_iff in Hbytes as [Hf _].
    rewrite !forallb_app, Hf. cbn [forallb andb].
    change (in_byte 97) with true. change (in_byte 3) with true.
    change (in_byte 240) with true. cbn [andb].
    apply forallb_forall. intros c Hc. apply is_ascii_in_byte.
    apply (proj1 (forallb_forall _ _) Hinfo), Hc.
Qed.

(** X3: from ASCII callsigns and an ASCII information string [ax25_frame]
    builds 32 flag bytes, 7 address bytes for each of destination, source
    and path entries, the bytes 0x03 0xF0, the information bytes as they
    are, two checksum bytes and a closing flag; every element is a byte,
    and the checksum taken over the frame between the flags, its own two
    bytes included, is 0x0F47. *)
Theorem ax25_frame_layout (source destination : pystr) (path : list pystr)
        (info : pystr) :
  forallb all_ascii (destination :: source :: path) = true ->
  all_ascii info = true ->
  exists addr fcs,
    ax25_frame uu source destination path info
    = Ok (repeat FLAG PREAMBLE_LENGTH
          ++ (addr ++ [0x03; 0xF0] ++ info ++ fcs) ++ [FLAG])
    /\ length addr = (7 * (2 + length path))%nat
    /\ length fcs = 2%nat
    /\ forallb in_byte (addr ++ [0x03; 0xF0] ++ info ++ fcs) = true
    /\ crc16_ccitt (addr ++ [0x03; 0xF0] ++ info ++ fcs) = 0x0F47.
Proof.
  intros Hcalls Hinfo.
  destruct (ax25_body_ascii source destination path info Hcalls Hinfo)
    as (front & Hbody & Hlen & Hbytes).
  cbn zeta in *.
  set (addr := front ++ [0x61]) in *.
  set (frame := addr ++ [0x03; 0xF0] ++ info) in *.
  pose proof (crc16_ccitt_range frame Hbytes) as Hcrc.
  pose proof (crc_residue frame Hbytes) as Hres.
  exists addr, [Z.land (crc16_ccitt frame) 0xFF; Z.shiftr (crc16_ccitt frame) 8].
  assert ((addr ++ [0x03; 0xF0] ++ info
           ++ [Z.land (crc16_ccitt frame) 0xFF; Z.shiftr (crc16_ccitt frame) 8])
          = frame ++ [Z.land (crc16_ccitt frame) 0xFF;
                      Z.shiftr (crc16_ccitt frame) 8]) as Eassoc.
  { unfold frame. now rewrite <- !app_assoc. }
  rewrite Eassoc.
  split; [| split; [exact Hlen | split; [reflexivity | split]]].
  - unfold ax25_frame. rewrite Hbody. reflexivity.
  - rewrite forallb_app, Hbytes. cbn [forallb andb].
    rewrite andb_true_r. apply andb_true_iff. split; apply in_byte_iff.
    + apply low_byte_range.
    + apply high_byte_range, Hcrc.
  - exact Hres.
Qed.

End FrameLayout.

Lemma encode_callsign_address_witness :
  all_ascii Examples.lower_call = true
  /\ encode_callsign Examples.keep_upper Examples.lower_call 7
     = Ok [150; 158; 104; 142; 158; 140; 110].
Proof.
  split; [reflexivity |].
  destruct (encode_callsign_address Examples.keep_upper Examples.lower_call 7
              eq_refl) as [H _].
  exact H.
Defined.

Lemma ax25_frame_layout_witness :
  forallb all_ascii
          (Examples.destination :: Examples.source :: Examples.path) = true
  /\ all_ascii Examples.info = true
  /\ exists addr fcs,
      ax25_frame Examples.keep_upper Examples.source Examples.destination
                 Examples.path Examples.info
      = Ok (repeat FLAG PREAMBLE_LENGTH
            ++ (addr ++ [0x03; 0xF0] ++ Examples.info ++ fcs) ++ [FLAG])
      /\ length addr = (7 * (2 + length Examples.path))%nat
      /\ length fcs = 2%nat
      /\ forallb in_byte (addr ++ [0x03; 0xF0] ++ Examples.info ++ fcs) = true
      /\ crc16_ccitt (addr ++ [0x03; 0xF0] ++ Examples.info ++ fcs) = 0x0F47.
Proof.
  split; [reflexivity | split; [reflexivity |]].
  exact (ax25_frame_layout Examples.keep_upper Examples.source
           Examples.destination Examples.path Examples.info eq_refl eq_refl).
Defined.

(** ** The bit stream keeps the packet *)

Lemma nrzi_run_bits (bits : list Z) (state : Z) :
  is_bit state -> Forall is_bit (Nrzi.run state bits).
Proof.
  revert state. induction bits as [| b bits IH]; intros state Hs.
  - constructor.
  - cbn [Nrzi.run]. unfold Nrzi.step.
    assert (is_bit (if b =? 0 then 1 - state else state)) as Hs'.
    { unfold is_bit in *. destruct (b =? 0); lia. }
    constructor; [exact Hs' | apply IH, Hs'].
Qed.

Lemma bits_of_bits (packet : list Z) : Forall is_bit (Nrzi.bits_of packet).
Proof.
  apply Forall_forall. intros b Hb. unfold Nrzi.bits_of in Hb.
  apply in_flat_map in Hb as (byte & _ & Hb).
  unfold Nrzi.bits_of_byte in Hb. apply in_map_iff in Hb as (i & <- & _).
  unfold is_bit. destruct (Z.testbit byte (Z.of_nat i)); auto.
Qed.

Lemma nrzi_run_injective (xs : list Z) :
  forall (ys : list Z) (state : Z),
    is_bit state -> Forall is_bit xs -> Forall is_bit ys ->
    Nrzi.run state xs = Nrzi.run state ys -> xs = ys.
Proof.
  induction xs as [| x xs IH]; intros ys state Hs Hxs Hys E.
  - destruct ys as [| y ys]; [reflexivity |].
    cbn [Nrzi.run] in E. unfold Nrzi.step in E. discriminate E.
  - destruct ys as [| y ys];
      [cbn [Nrzi.run] in E; unfold Nrzi.step in E; discriminate E |].
    inversion Hxs as [| ? ? Hx Hxs']; subst.
    inversion Hys as [| ? ? Hy Hys']; subst.
    change (Nrzi.run state (x :: xs))
      with ((if x =? 0 then 1 - state else state)
            :: Nrzi.run (fst (Nrzi.step state x)) xs) in E.
    change (Nrzi.run state (y :: ys))
      with ((if y =? 0 then 1 - state else state)
            :: Nrzi.run (fst (Nrzi.step state y)) ys) in E.
    pose proof (f_equal (hd 0) E) as E0.
    pose proof (f_equal (@tl Z) E) as E1.
    cbn [hd tl] in E0, E1. clear E.
    assert (x = y) as ->.
    { unfold is_bit in *.
      destruct Hx as [-> | ->], Hy as [-> | ->];
        change (0 =? 0) with true in E0; change (1 =? 0) with false in E0;
        cbv iota in E0; lia. }
    f_equal. apply (IH ys _ (nrzi_step_bit state y Hs) Hxs' Hys').
    exact E1.
Qed.

Lemma bits_value_byte (byte : Z) :
  in_byte byte = true -> bits_value (Nrzi.bits_of_byte byte) = byte.
Proof.
  intro H. apply in_byte_iff in H. apply Z.eqb_eq.
  refine (holds_from_spec
            (fun b => bits_value (Nrzi.bits_of_byte b) =? b) 256 0 _ byte _).
  - vm_compute. reflexivity.
  - lia.
Qed.

Lemma app_same_length {A : Type} (a : list A) :
  forall b c d, length a = length b -> a ++ c = b ++ d -> a = b /\ c = d.
Proof.
  induction a as [| x a IH]; intros [| y b] c d Hl E;
    try discriminate Hl.
  - now split.
  - cbn [app] in E. injection E as -> E. cbn [length] in Hl.
    destruct (IH b c d) as [-> ->]; [lia | exact E | now split].
Qed.

Lemma bits_of_injective (p : list Z) :
  forall q,
    forallb in_byte p = true -> forallb in_byte q = true ->
    Nrzi.bits_of p = Nrzi.bits_of q -> p = q.
Proof.
  induction p as [| a p IH]; intros q Hp Hq E.
  - destruct q as [| b q]; [reflexivity | discriminate E].
  - destruct q as [| b q]; [discriminate E |].
    cbn [forallb] in Hp, Hq.
    apply andb_true_iff in Hp as [Ha Hp]. apply andb_true_iff in Hq as [Hb Hq].
    unfold Nrzi.bits_of in E. cbn [flat_map] in E.
    assert (Nrzi.bits_of_byte a = Nrzi.bits_of_byte b
            /\ flat_map Nrzi.bits_of_byte p = flat_map Nrzi.bits_of_byte q)
      as [E1 E2].
    { apply app_same_length in E; [exact E | reflexivity]. }
    f_equal.
    + rewrite <- (bits_value_byte a Ha), <- (bits_value_byte b Hb).
      now rewrite E1.
    + apply IH; assumption.
Qed.

(** X4: every element of the bit stream is 0 or 1, whatever integers the
    packet holds. *)
Theorem generate_bitstream_bits (packet : list Z) :
  Forall (fun b => b = 0 \/ b = 1) (generate_bitstream packet).
Proof.
  rewrite generate_bitstream_layout. fold is_bit.
  apply Forall_app. split; [| apply Forall_app; split].
  - apply Forall_forall. intros b Hb.
    change preamble_bits with (concat (repeat [0; 1] 32)) in Hb.
    apply in_concat in Hb as (l & Hl & Hb).
    apply repeat_spec in Hl. subst l.
    unfold is_bit. destruct Hb as [<- | [<- | []]]; auto.
  - apply nrzi_run_bits. now right.
  - constructor; [now left | constructor; [now right | constructor]].
Qed.

(** X5: two packets of bytes with the same bit stream are the same
    packet: the differential encoding loses nothing. *)
Theorem generate_bitstream_injective (p q : list Z) :
  forallb in_byte p = true -> forallb in_byte q = true ->
  generate_bitstream p = generate_bitstream q -> p = q.
Proof.
  intros Hp Hq E. rewrite !generate_bitstream_layout in E.
  apply app_inv_head, app_inv_tail in E. unfold Nrzi.encode in E.
  apply (bits_of_injective p q Hp Hq).
  apply (nrzi_run_injective _ _ 1); auto using bits_of_bits.
  now right.
Qed.

Lemma generate_bitstream_injective_witness :
  forallb in_byte [0x7E; 0x03] = true
  /\ (generate_bitstream [0x7E; 0x03] = generate_bitstream [0x7E; 0x03]
      -> [0x7E; 0x03] = [0x7E; 0x03] :> list Z).
Proof.
  split; [reflexivity |].
  exact (generate_bitstream_injective [0x7E; 0x03] [0x7E; 0x03]
           eq_refl eq_refl).
Defined.

(** ** Tones: amplitude and continuity *)

Local Open Scope R_scope.

Lemma seq_add_map (a len : nat) :
  forall start, seq (a + start) len = map (Nat.add a) (seq start len).
Proof.
  induction len as [| len IH]; intro start; [reflexivity |].
  cbn [seq map]. f_equal. rewrite <- IH. f_equal. lia.
Qed.

Lemma range_app (n m : Z) :
  (0 <= n)%Z -> (0 <= m)%Z ->
  range (n + m) = range n ++ map (fun t => (n + t)%Z) (range m).
Proof.
  intros Hn Hm. unfold range.
  rewrite Z2Nat.inj_add, seq_app, map_app by assumption.
  f_equal. cbn [Nat.add].
  rewrite <- (Nat.add_0_r (Z.to_nat n)) at 1.
  rewrite seq_add_map, !map_map.
  apply map_ext. intro i. rewrite Nat2Z.inj_add, Z2Nat.id by exact Hn.
  reflexivity.
Qed.

(** X6: a tone never exceeds its amplitude: every sample is at most
    [|amplitude| * 32767] in absolute value, so an amplitude of at most 1
    keeps the tone in the 16-bit range. *)
Theorem generate_continuous_tone_amplitude
        (frequency : R) (samples : Z) (phase amplitude : R) :
  let tone := fst (generate_continuous_tone frequency samples phase amplitude) in
  Forall (fun s => Rabs (IZR s) <= Rabs amplitude * 32767) tone
  /\ (Rabs amplitude <= 1 -> Forall in_int16 tone).
Proof.
  cbn zeta.
  assert (Forall (fun s => Rabs (IZR s) <= Rabs amplitude * 32767)
                 (fst (generate_continuous_tone frequency samples phase
                                                amplitude))) as Hb.
  { unfold generate_continuous_tone. cbn [fst].
    apply Forall_forall. intros s Hs.
    apply in_map_iff in Hs as (t & <- & _). unfold tone_sample.
    eapply Rle_trans; [apply int_abs_le |].
    rewrite !Rabs_mult, (Rabs_pos_eq 32767) by lra.
    pose proof (Rabs_pos amplitude) as Ha.
    assert (Rabs (sin (2 * PI * frequency * IZR t / IZR SAMPLE_RATE + phase))
            <= 1) as Hs.
    { apply Rabs_le. pose proof (SIN_bound
        (2 * PI * frequency * IZR t / IZR SAMPLE_RATE + phase)). lra. }
    revert Ha Hs.
    generalize (Rabs (sin (2 * PI * frequency * IZR t / IZR SAMPLE_RATE
                           + phase))) (Rabs amplitude).
    bound_product. }
  split; [exact Hb |].
  intro Ha. eapply Forall_impl; [| exact Hb].
  intros s Hs. cbv beta in Hs. unfold in_int16.
  assert (Rabs (IZR s) <= 32767) as H by lra.
  apply Rabs_le_inv in H as [Hlo Hhi].
  apply Z.abs_le. split; apply le_IZR; [rewrite opp_IZR |]; lra.
Qed.

Lemma fmod_turns (x m : R) : exists k : Z, fmod x m = x - IZR k * m.
Proof. exists (Zfloor (x / m)). reflexivity. Qed.

(** X7: tones join without a jump.  A tone of [n + m] samples is the tone
    of [n] samples followed by the tone of [m] samples started at the
    phase the first one returns; the phase after the two runs is the one
    after the single run, up to whole turns. *)
Theorem generate_continuous_tone_continues
        (frequency : R) (n m : Z) (phase amplitude : R) :
  (0 <= n)%Z -> (0 <= m)%Z ->
  let first := generate_continuous_tone frequency n phase amplitude in
  let second := generate_continuous_tone frequency m (snd first) amplitude in
  let whole := generate_continuous_tone frequency (n + m) phase amplitude in
  fst whole = fst first ++ fst second
  /\ exists k : Z, snd whole = snd second + IZR k * (2 * PI).
Proof.
  intros Hn Hm. cbn zeta. unfold generate_continuous_tone. cbn [fst snd].
  destruct (fmod_turns (2 * PI * frequency * IZR n / IZR SAMPLE_RATE) (2 * PI))
    as (kn & Hkn).
  destruct (fmod_turns (2 * PI * frequency * IZR m / IZR SAMPLE_RATE) (2 * PI))
    as (km & Hkm).
  destruct (fmod_turns (2 * PI * frequency * IZR (n + m) / IZR SAMPLE_RATE)
                       (2 * PI)) as (k & Hk).
  split.
  - rewrite range_app, map_app, map_map by assumption. f_equal.
    apply map_ext. intro t. unfold tone_sample. do 2 f_equal.
    rewrite Hkn, plus_IZR.
    rewrite <- (sin_turns (2 * PI * frequency * (IZR n + IZR t)
                           / IZR SAMPLE_RATE + phase) kn).
    f_equal. unfold SAMPLE_RATE. field.
  - exists (kn + km - k)%Z.
    rewrite Hkn, Hkm, Hk, minus_IZR, !plus_IZR. unfold SAMPLE_RATE. field.
Qed.

Lemma generate_continuous_tone_continues_witness :
  let first := generate_continuous_tone 1600 200 0 0.02 in
  let second := generate_continuous_tone 1600 120 (snd first) 0.02 in
  let whole := generate_continuous_tone 1600 (200 + 120) 0 0.02 in
  fst whole = fst first ++ fst second
  /\ exists k : Z, snd whole = snd second + IZR k * (2 * PI).
Proof.
  apply (generate_continuous_tone_continues 1600 200 120 0 0.02); lia.
Defined.

(** ** Normalisation keeps the signal in range *)

Lemma int_le (x y : R) : x <= y -> (int x <= int y)%Z.
Proof.
  intro H. destruct (Rle_dec 0 x) as [Hx | Hx].
  - unfold int. destruct (Rle_dec 0 x); [| contradiction].
    destruct (Rle_dec 0 y); [| lra]. now apply Zfloor_le.
  - apply Rnot_le_lt in Hx. pose proof (int_neg_sign x Hx) as Hs.
    destruct (Rle_dec 0 y) as [Hy | Hy].
    + pose proof (int_nonneg_sign y Hy). lia.
    + unfold int. destruct (Rle_dec 0 x); [lra |].
      destruct (Rle_dec 0 y); [contradiction |]. now apply Zceil_le.
Qed.

Lemma rescale_range (m s : Z) :
  (0 < m)%Z -> (Z.abs s <= m)%Z -> (Z.abs (rescale m s) <= 32767)%Z.
Proof.
  intros Hm Hs. unfold rescale.
  apply IZR_lt in Hm. apply IZR_le in Hs. rewrite abs_IZR in Hs.
  apply le_IZR. rewrite abs_IZR.
  eapply Rle_trans; [apply int_abs_le |].
  rewrite Rabs_mult, (Rabs_pos_eq (32767 / IZR m))
    by (apply Rlt_le, Rdiv_lt_0_compat; lra).
  apply Rmult_le_reg_r with (IZR m); [exact Hm |].
  replace (Rabs (IZR s) * (32767 / IZR m) * IZR m) with (Rabs (IZR s) * 32767)
    by (field; lra).
  lra.
Qed.

Lemma rescale_le (m s t : Z) :
  (0 < m)%Z -> (s <= t)%Z -> (rescale m s <= rescale m t)%Z.
Proof.
  intros Hm Hst. unfold rescale. apply int_le.
  apply IZR_lt in Hm. apply IZR_le in Hst.
  apply Rmult_le_compat_r; [| exact Hst].
  apply Rlt_le, Rdiv_lt_0_compat; lra.
Qed.

Lemma rescale_0 (m : Z) : rescale m 0 = 0%Z.
Proof. unfold rescale. rewrite Rmult_0_l. apply int_0. Qed.

(** X8: on a non-empty buffer [normalize] applies one map to every
    sample; the map sends the samples of the buffer into the range
    -32767 .. 32767, keeps 0 at 0 and keeps the order of any two values,
    so signs and the shape of the signal survive. *)
Theorem normalize_range (audio : list Z) :
  audio <> [] ->
  exists scale : Z -> Z,
    normalize audio = Ok (map scale audio)
    /\ (forall s, In s audio -> (Z.abs (scale s) <= 32767)%Z)
    /\ scale 0%Z = 0%Z
    /\ (forall s t, (s <= t)%Z -> (scale s <= scale t)%Z).
Proof.
  intro Hne. unfold normalize.
  pose proof (max_abs_spec audio) as Hs.
  destruct (max_abs audio) as [m | e]; [| now destruct Hs].
  destruct Hs as [_ [_ Hmax]]. cbn [bind].
  destruct (m >? 0)%Z eqn:Hm.
  - apply Z.gtb_lt in Hm. exists (rescale m).
    split; [reflexivity | split; [| split]].
    + intros s Hs. apply (rescale_range m s Hm (Hmax s Hs)).
    + apply rescale_0.
    + intros s t. apply (rescale_le m s t Hm).
  - exists (fun s => s). rewrite map_id.
    split; [reflexivity | split; [| split]].
    + intros s Hs. pose proof (Hmax s Hs).
      assert (m <= 0)%Z by (destruct (Z.gtb_spec m 0); [discriminate | lia]).
      lia.
    + reflexivity.
    + auto.
Qed.

Lemma normalize_range_witness :
  exists scale : Z -> Z,
    normalize [3; -6; 0]%Z = Ok (map scale [3; -6; 0]%Z)
    /\ (forall s, In s [3; -6; 0]%Z -> (Z.abs (scale s) <= 32767)%Z)
    /\ scale 0%Z = 0%Z
    /\ (forall s t, (s <= t)%Z -> (scale s <= scale t)%Z).
Proof.
  apply (normalize_range [3; -6; 0]%Z). discriminate.
Defined.

Local Close Scope R_scope.

(** ** The WAV frames *)

Lemma to_bytes_2_little_signed_spec (v : Z) :
  to_bytes_2_little_signed v
  = if (-32768 <=? v) && (v <=? 32767)
    then Ok [(v mod 65536) mod 256; (v mod 65536) / 256]
    else Raise OverflowError.
Proof.
  unfold to_bytes_2_little_signed.
  destruct ((-32768 <=? v) && (v <=? 32767)); [| reflexivity].
  change 0xFF with (Z.ones 8).
  rewrite !Z.land_ones, Z.shiftr_div_pow2 by lia.
  change (2 ^ 8) with 256. do 2 f_equal.
  - pose proof (Z.div_mod v 256). pose proof (Z.div_mod v 65536).
    pose proof (Z.div_mod (v mod 65536) 256).
    pose proof (Z.mod_pos_bound v 256). pose proof (Z.mod_pos_bound v 65536).
    pose proof (Z.mod_pos_bound (v mod 65536) 256). lia.
  - f_equal.
    pose proof (Z.div_mod v 256). pose proof (Z.div_mod v 65536).
    pose proof (Z.div_mod (v / 256) 256).
    pose proof (Z.div_mod (v mod 65536) 256).
    pose proof (Z.mod_pos_bound v 256). pose proof (Z.mod_pos_bound v 65536).
    pose proof (Z.mod_pos_bound (v / 256) 256).
    pose proof (Z.mod_pos_bound (v mod 65536) 256). lia.
Qed.

Lemma sample_bytes_spec (audio : list Z) :
  sample_bytes audio
  = if forallb (fun v => (-32768 <=? v) && (v <=? 32767)) audio
    then Ok (flat_map (fun v => [(v mod 65536) mod 256; (v mod 65536) / 256])
                      audio)
    else Raise OverflowError.
Proof.
  induction audio as [| v audio IH]; [reflexivity |].
  cbn [sample_bytes forallb flat_map].
  rewrite to_bytes_2_little_signed_spec, IH.
  destruct ((-32768 <=? v) && (v <=? 32767)); [| reflexivity].
  cbn [bind andb].
  now destruct (forallb (fun v => (-32768 <=? v) && (v <=? 32767)) audio).
Qed.

Lemma frames_injective (a : list Z) :
  forall b,
    forallb (fun v => (-32768 <=? v) && (v <=? 32767)) a = true ->
    forallb (fun v => (-32768 <=? v) && (v <=? 32767)) b = true ->
    flat_map (fun v => [(v mod 65536) mod 256; (v mod 65536) / 256]) a
    = flat_map (fun v => [(v mod 65536) mod 256; (v mod 65536) / 256]) b ->
    a = b.
Proof.
  induction a as [| x a IH]; intros [| y b] Ha Hb E; try discriminate E.
  - reflexivity.
  - cbn [forallb] in Ha, Hb.
    apply andb_true_iff in Ha as [Hx Ha]. apply andb_true_iff in Hb as [Hy Hb].
    cbn [flat_map app] in E. injection E as E0 E1 E2.
    f_equal; [| now apply IH].
    apply andb_true_iff in Hx as [Hx0 Hx1]. apply andb_true_iff in Hy as [Hy0 Hy1].
    apply Z.leb_le in Hx0, Hx1, Hy0, Hy1.
    pose proof (Z.div_mod (x mod 65536) 256).
    pose proof (Z.div_mod (y mod 65536) 256).
    pose proof (Z.div_mod x 65536). pose proof (Z.div_mod y 65536).
    pose proof (Z.mod_pos_bound x 65536). pose proof (Z.mod_pos_bound y 65536).
    assert (x mod 65536 = y mod 65536) as Em by lia.
    lia.
Qed.

(** X9: [save_to_wav] raises [OverflowError] exactly when some sample
    is outside -32768 .. 32767, and nothing else; otherwise the frames are,
    for each sample in turn, the low and the high byte of its value
    modulo 65536 (two's complement, little endian), each a byte. *)
Theorem save_to_wav_frames (audio : list Z) :
  if forallb (fun v => (-32768 <=? v) && (v <=? 32767)) audio
  then exists wav,
      save_to_wav audio = Ok wav
      /\ frames wav
         = flat_map (fun v => [(v mod 65536) mod 256; (v mod 65536) / 256])
                    audio
      /\ forallb in_byte (frames wav) = true
  else save_to_wav audio = Raise OverflowError.
Proof.
  unfold save_to_wav. rewrite sample_bytes_spec.
  destruct (forallb (fun v => (-32768 <=? v) && (v <=? 32767)) audio);
    [| reflexivity].
  eexists. split; [reflexivity |]. cbn [frames]. split; [reflexivity |].
  apply forallb_forall. intros byte Hb.
  apply in_flat_map in Hb as (v & _ & Hb). apply in_byte_iff.
  pose proof (Z.mod_pos_bound v 65536).
  pose proof (Z.mod_pos_bound (v mod 65536) 256).
  pose proof (Z.div_mod (v mod 65536) 256).
  destruct Hb as [<- | [<- | []]]; lia.
Qed.

(** X10: the frames determine the samples: two buffers that [save_to_wav]
    turns into the same frames are the same buffer. *)
Theorem save_to_wav_injective (a b : list Z) (wa wb : wav_file) :
  save_to_wav a = Ok wa -> save_to_wav b = Ok wb ->
  frames wa = frames wb -> a = b.
Proof.
  unfold save_to_wav. rewrite !sample_bytes_spec.
  destruct (forallb (fun v => (-32768 <=? v) && (v <=? 32767)) a) eqn:Ha;
    [| discriminate].
  destruct (forallb (fun v => (-32768 <=? v) && (v <=? 32767)) b) eqn:Hb;
    [| discriminate].
  cbn [bind]. intros [= <-] [= <-]. cbn [frames].
  now apply frames_injective.
Qed.

Lemma save_to_wav_injective_witness :
  [12; -3] = [12; -3] :> list Z.
Proof.
  exact (save_to_wav_injective
           [12; -3] [12; -3]
           {| nchannels := 1; sampwidth := 2; framerate := SAMPLE_RATE;
              frames := [12; 0; 253; 255] |}
           {| nchannels := 1; sampwidth := 2; framerate := SAMPLE_RATE;
              frames := [12; 0; 253; 255] |}
           eq_refl eq_refl eq_refl).
Defined.

(** ** The filter and a constant input *)

Local Open Scope R_scope.

Lemma filter_alpha_positive (cutoff : R) :
  0 < cutoff ->
  exists alpha, filter_alpha cutoff = Ok alpha /\ 0 < alpha < 1.
Proof.
  intro Hc. pose proof PI_RGT_0 as Hpi.
  assert (0 < cutoff * 2 * PI) as Hd by nra.
  assert (0 < 1 / (cutoff * 2 * PI)) as Hrc by (apply Rdiv_lt_0_compat; lra).
  assert (0 < 1 / IZR SAMPLE_RATE) as Hsr
      by (unfold SAMPLE_RATE; apply Rdiv_lt_0_compat; lra).
  unfold filter_alpha, fdiv.
  destruct (Req_dec_T (cutoff * 2 * PI) 0) as [E | _]; [lra |].
  cbn [bind].
  destruct (Req_dec_T (1 / (cutoff * 2 * PI) + 1 / IZR SAMPLE_RATE) 0)
    as [E | _]; [lra |].
  eexists. split; [reflexivity |].
  revert Hrc Hsr.
  generalize (1 / IZR SAMPLE_RATE) (1 / (cutoff * 2 * PI)).
  intros sr rc Hrc Hsr. split.
  - apply Rdiv_lt_0_compat; lra.
  - apply Rmult_lt_reg_r with (rc + sr); [lra |].
    unfold Rdiv. rewrite Rmult_assoc, Rinv_l by lra. lra.
Qed.

(** One step of the filter on a constant input moves the output towards
    [2 * alpha / (1 + alpha) * c], up to the truncation. *)
Lemma filter_constant_step (alpha c : R) (y : Z) (bound : R) :
  0 < alpha < 1 ->
  Rabs (IZR y - 2 * alpha / (1 + alpha) * c) <= bound ->
  Rabs (IZR (int (alpha * (c + c - IZR y))) - 2 * alpha / (1 + alpha) * c)
  <= alpha * bound + 1.
Proof.
  intros Ha Hy.
  pose proof (int_error (alpha * (c + c - IZR y))) as He.
  replace (IZR (int (alpha * (c + c - IZR y))) - 2 * alpha / (1 + alpha) * c)
    with ((IZR (int (alpha * (c + c - IZR y))) - alpha * (c + c - IZR y))
          + - alpha * (IZR y - 2 * alpha / (1 + alpha) * c))
    by (field; lra).
  eapply Rle_trans; [apply Rabs_triang |].
  rewrite Rabs_mult, Rabs_Ropp, (Rabs_pos_eq alpha) by lra.
  assert (alpha * Rabs (IZR y - 2 * alpha / (1 + alpha) * c) <= alpha * bound)
    by (apply Rmult_le_compat_l; lra).
  lra.
Qed.

Lemma filter_constant_fold (alpha c spread : R) :
  0 < alpha < 1 ->
  forall (j : nat) (acc : list Z) (y : Z) (k : nat),
    Rabs (IZR y - 2 * alpha / (1 + alpha) * c)
    <= alpha ^ k * spread + 1 / (1 - alpha) ->
    exists ys,
      fst (fold_left (filter_body alpha) (repeat c j) (acc ++ [y], c))
      = (acc ++ [y]) ++ ys
      /\ forall i, (i < j)%nat ->
                   Rabs (IZR (nth i ys 0%Z) - 2 * alpha / (1 + alpha) * c)
                   <= alpha ^ (k + 1 + i) * spread + 1 / (1 - alpha).
Proof.
  intro Ha. induction j as [| j IH]; intros acc y k Hy.
  - exists []. split; [cbn; now rewrite app_nil_r | intros i Hi; lia].
  - cbn [repeat fold_left]. rewrite filter_body_snoc.
    pose proof (filter_constant_step alpha c y _ Ha Hy) as Hstep.
    assert (alpha * (alpha ^ k * spread + 1 / (1 - alpha)) + 1
            = alpha ^ (k + 1) * spread + 1 / (1 - alpha)) as E.
    { rewrite pow_add, pow_1. field. lra. }
    rewrite E in Hstep.
    destruct (IH (acc ++ [y]) _ (k + 1)%nat Hstep) as (ys & Hys & Hb).
    exists (int (alpha * (c + c - IZR y)) :: ys). split.
    + rewrite Hys. now rewrite <- app_assoc.
    + intros [| i] Hi.
      * cbn [nth]. now rewrite Nat.add_0_r.
      * cbn [nth]. replace (k + 1 + S i)%nat with (k + 1 + 1 + i)%nat by lia.
        apply Hb. lia.
Qed.

Lemma filter_constant (alpha c : R) (n : nat) :
  0 < alpha < 1 ->
  forall k, (k < n)%nat ->
    Rabs (IZR (nth k (fst (fold_left (filter_body alpha) (repeat c n) ([], 0)))
                   0%Z)
          - 2 * alpha / (1 + alpha) * c)
    <= alpha ^ k * Rabs (2 * alpha / (1 + alpha) * c) + 1 / (1 - alpha).
Proof.
  intros Ha k Hk. destruct n as [| n]; [lia |].
  cbn [repeat fold_left]. rewrite filter_first_zero.
  assert (0 < 1 / (1 - alpha)) as Hb by (apply Rdiv_lt_0_compat; lra).
  assert (Rabs (IZR 0 - 2 * alpha / (1 + alpha) * c)
          <= alpha ^ 0 * Rabs (2 * alpha / (1 + alpha) * c) + 1 / (1 - alpha))
    as H0.
  { rewrite pow_O, Rminus_0_l, Rabs_Ropp. lra. }
  destruct (filter_constant_fold alpha c _ Ha n [] 0%Z 0%nat H0)
    as (ys & Hys & Hb').
  change ([0%Z]) with ([] ++ [0%Z]). rewrite Hys.
  destruct k as [| k].
  - exact H0.
  - cbn [app nth]. apply (Hb' k). lia.
Qed.

(** X11: the filter does not remove a constant offset.  For any cutoff
    above 0 the coefficient [alpha] lies strictly between 0 and 1, and on
    an input that is [c] throughout the [k]-th output is within
    [alpha ^ k * |g * c| + 1 / (1 - alpha)] of [g * c], where
    [g = 2 * alpha / (1 + alpha)]: the output settles near [g * c], not
    near 0. *)
Theorem highpass_filter_constant (cutoff c : R) (n : nat) :
  0 < cutoff ->
  exists alpha ys,
    filter_alpha cutoff = Ok alpha /\ 0 < alpha < 1
    /\ highpass_filter (repeat c n) cutoff = Ok ys
    /\ forall k, (k < n)%nat ->
         Rabs (IZR (nth k ys 0%Z) - 2 * alpha / (1 + alpha) * c)
         <= alpha ^ k * Rabs (2 * alpha / (1 + alpha) * c) + 1 / (1 - alpha).
Proof.
  intro Hc. destruct (filter_alpha_positive cutoff Hc) as (alpha & Hal & Ha).
  exists alpha. eexists. split; [exact Hal | split; [exact Ha |]].
  unfold highpass_filter. rewrite Hal. cbn [bind].
  split; [reflexivity |]. apply filter_constant, Ha.
Qed.

Lemma highpass_filter_constant_witness :
  exists alpha ys,
    filter_alpha 350 = Ok alpha /\ 0 < alpha < 1
    /\ highpass_filter (repeat 1000 960) 350 = Ok ys
    /\ forall k, (k < 960)%nat ->
         Rabs (IZR (nth k ys 0%Z) - 2 * alpha / (1 + alpha) * 1000)
         <= alpha ^ k * Rabs (2 * alpha / (1 + alpha) * 1000)
            + 1 / (1 - alpha).
Proof.
  apply (highpass_filter_constant 350 1000 960). lra.
Defined.

(** X12: with the cutoff 350 that [afsk_encode] uses, a constant input
    [c] comes out as [g * c] with [g] between 0.988 and 0.989, up to 45
    and a term that decays as [0.97761 ^ k]. *)
Theorem highpass_filter_default_gain (c : R) (n : nat) :
  exists g ys,
    0.988 < g < 0.989
    /\ highpass_filter (repeat c n) 350 = Ok ys
    /\ forall k, (k < n)%nat ->
         Rabs (IZR (nth k ys 0%Z) - g * c) <= 0.97761 ^ k * Rabs c + 45.
Proof.
  pose proof default_alpha_bounds as [Hlo Hhi].
  assert (0 < default_alpha < 1) as Ha by lra.
  exists (2 * default_alpha / (1 + default_alpha)). eexists.
  assert (0.988 < 2 * default_alpha / (1 + default_alpha) < 0.989) as Hg.
  { split; apply Rmult_lt_reg_r with (1 + default_alpha); try lra;
      unfold Rdiv; rewrite Rmult_assoc, Rinv_l by lra; lra. }
  split; [exact Hg |].
  unfold highpass_filter. rewrite default_alpha_ok. cbn [bind].
  split; [reflexivity |].
  intros k Hk. eapply Rle_trans; [apply (filter_constant _ c n Ha k Hk) |].
  assert (1 / (1 - default_alpha) <= 45) as Hb.
  { apply Rmult_le_reg_r with (1 - default_alpha); [lra |].
    unfold Rdiv. rewrite Rmult_assoc, Rinv_l by lra. lra. }
  assert (default_alpha ^ k <= 0.97761 ^ k) as Hp
      by (apply pow_incr; lra).
  assert (0 <= default_alpha ^ k) as Hp0 by (apply pow_le; lra).
  rewrite Rabs_mult, (Rabs_pos_eq (2 * default_alpha / (1 + default_alpha)))
    by lra.
  pose proof (Rabs_pos c) as Hc.
  assert (2 * default_alpha / (1 + default_alpha) * Rabs c <= Rabs c) as Hgc
      by nra.
  assert (default_alpha ^ k
          * (2 * default_alpha / (1 + default_alpha) * Rabs c)
          <= default_alpha ^ k * Rabs c) as H1
      by (apply Rmult_le_compat_l; assumption).
  assert (default_alpha ^ k * Rabs c <= 0.97761 ^ k * Rabs c) as H2
      by (apply Rmult_le_compat_r; assumption).
  lra.
Qed.

Local Close Scope R_scope.

(** ** The position report *)

Lemma list_eqb_eq (a : list Z) : forall b, list_eqb a b = true -> a = b.
Proof.
  induction a as [| x a IH]; intros [| y b] H; try discriminate H.
  - reflexivity.
  - cbn [list_eqb] in H. apply andb_true_iff in H as [Hx Hr].
    apply Z.eqb_eq in Hx. subst. f_equal. now apply IH.
Qed.

Lemma all_ascii_app (a b : pystr) :
  all_ascii (a ++ b) = all_ascii a && all_ascii b.
Proof. apply forallb_app. Qed.

Lemma uint_codes_ascii (d : Decimal.uint) : all_ascii (uint_codes d) = true.
Proof. induction d; cbn [uint_codes]; [reflexivity | exact IHd ..]. Qed.

Lemma digits_ascii (n : Z) : all_ascii (digits n) = true.
Proof. unfold digits. destruct (Z.to_int n); apply uint_codes_ascii. Qed.

Lemma zero_pad_ascii (width : nat) (sign body : pystr) :
  all_ascii sign = true -> all_ascii body = true ->
  all_ascii (zero_pad width sign body) = true.
Proof.
  intros Hs Hb. unfold zero_pad, all_ascii in *.
  rewrite !forallb_app, Hs, Hb, andb_true_r. cbn [andb].
  apply forallb_forall. intros c Hc. apply repeat_spec in Hc. now subst.
Qed.

Lemma format_int_ascii (width : nat) (n : Z) :
  all_ascii (format_int width n) = true.
Proof.
  unfold format_int. apply zero_pad_ascii; [| apply digits_ascii].
  now destruct (n <? 0).
Qed.

Lemma hundredths_text_ascii (h : Z) : all_ascii (hundredths_text h) = true.
Proof.
  unfold hundredths_text, all_ascii. rewrite forallb_app.
  fold (all_ascii (digits (h / 100))). rewrite digits_ascii.
  cbn [forallb andb]. unfold is_ascii.
  pose proof (Z.mod_pos_bound h 100). pose proof (Z.mod_pos_bound h 10).
  pose proof (Z.div_mod (h mod 100) 10).
  pose proof (Z.mod_pos_bound (h mod 100) 10).
  repeat (apply andb_true_iff; split);
    try reflexivity; try apply Z.leb_le; try apply Z.ltb_lt; lia.
Qed.

Lemma format_fixed2_ascii (width : nat) (x : R) :
  all_ascii (format_fixed2 width x) = true.
Proof.
  unfold format_fixed2. apply zero_pad_ascii; [| apply hundredths_text_ascii].
  now destruct (Rlt_dec x 0).
Qed.

Lemma format_coordinates_ascii_any (latitude longitude : R) (symbol : pystr) :
  all_ascii symbol = true ->
  all_ascii (format_coordinates latitude longitude symbol) = true.
Proof.
  intro Hs. unfold format_coordinates.
  rewrite !all_ascii_app, Hs, !format_int_ascii, !format_fixed2_ascii.
  now destruct (Rle_dec 0 latitude), (Rle_dec 0 longitude).
Qed.

Lemma format_coordinates_ascii_symbol (latitude longitude : R) :
  all_ascii (format_coordinates latitude longitude [47]) = true.
Proof. now apply format_coordinates_ascii_any. Qed.

(** X13: the position report holds ASCII characters only, whatever the
    coordinates, when the symbol does; so its encoding in [ax25_frame]
    cannot fail. *)
Theorem format_coordinates_ascii (latitude longitude : R) (symbol : pystr) :
  all_ascii symbol = true ->
  all_ascii (format_coordinates latitude longitude symbol) = true.
Proof. apply format_coordinates_ascii_any. Qed.

Lemma format_coordinates_ascii_witness :
  all_ascii (format_coordinates (-33.75) 151.25 [47]) = true.
Proof.
  apply (format_coordinates_ascii (-33.75) 151.25 [47]). reflexivity.
Defined.

Lemma format_int_2 (n : Z) :
  0 <= n < 100 -> format_int 2 n = [48 + n / 10; 48 + n mod 10].
Proof.
  intro H. apply list_eqb_eq.
  refine (holds_from_spec
            (fun n => list_eqb (format_int 2 n) [48 + n / 10; 48 + n mod 10])
            100 0 _ n _).
  - vm_compute. reflexivity.
  - lia.
Qed.

Lemma format_int_3 (n : Z) :
  0 <= n < 1000 ->
  format_int 3 n = [48 + n / 100; 48 + n / 10 mod 10; 48 + n mod 10].
Proof.
  intro H. apply list_eqb_eq.
  refine (holds_from_spec
            (fun n => list_eqb (format_int 3 n)
                               [48 + n / 100; 48 + n / 10 mod 10; 48 + n mod 10])
            1000 0 _ n _).
  - vm_compute. reflexivity.
  - lia.
Qed.

Lemma hundredths_text_5 (h : Z) :
  0 <= h <= 6000 ->
  zero_pad 5 [] (hundredths_text h)
  = [48 + h / 1000; 48 + h / 100 mod 10; 46; 48 + h / 10 mod 10; 48 + h mod 10].
Proof.
  intro H. apply list_eqb_eq.
  refine (holds_from_spec
            (fun h => list_eqb (zero_pad 5 [] (hundredths_text h))
                               [48 + h / 1000; 48 + h / 100 mod 10; 46;
                                48 + h / 10 mod 10; 48 + h mod 10])
            (Z.to_nat 6001) 0 _ h _).
  - vm_compute. reflexivity.
  - rewrite Z2Nat.id; lia.
Qed.

Local Open Scope R_scope.

(** The whole degrees of a coordinate below [n]. *)
Lemma degrees_range (v : R) (n : Z) :
  0 <= v < IZR n -> (0 <= int v < n)%Z.
Proof.
  intros [Hlo Hhi]. pose proof (int_nonneg v Hlo) as [Hi _].
  split; [apply int_nonneg_sign, Hlo | apply lt_IZR; lra].
Qed.

(** The minutes the code computes lie between 0 and 60, both included:
    the rounding of the difference and of the product can reach 60. *)
Lemma minutes_range (x : R) : 0 <= minutes x (int (Rabs x)) <= 60.
Proof.
  pose proof (int_nonneg (Rabs x) (Rabs_pos x)) as Hd.
  unfold minutes.
  set (d := Rabs x - IZR (int (Rabs x))) in *.
  assert (0 <= d <= 1) as Hd' by (unfold d; lra).
  pose proof (round_float_nonneg d (proj1 Hd')) as H0.
  pose proof (round_float_le_int d 1 Hd' eq_refl) as H1.
  split.
  - apply round_float_nonneg. lra.
  - apply (round_float_le_int _ 60); [lra | reflexivity].
Qed.

(** They are the exact minutes up to the two roundings. *)
Lemma minutes_close (x : R) :
  Rabs (minutes x (int (Rabs x)) - (Rabs x - IZR (int (Rabs x))) * 60)
  <= / 100000000000000.
Proof.
  pose proof (int_nonneg (Rabs x) (Rabs_pos x)) as Hd.
  unfold minutes.
  set (d := Rabs x - IZR (int (Rabs x))) in *.
  assert (0 <= d < 1) as Hd' by (unfold d; lra).
  pose proof (round_float_nonneg d (proj1 Hd')) as H0.
  assert (round_float d <= 1) as H1
      by (apply (round_float_le_int d 1); [lra | reflexivity]).
  assert (Rabs (round_float d - d) <= powerRZ 2 (0 - 54)) as E1.
  { apply round_float_error; [lia |].
    rewrite Rabs_pos_eq by lra. rewrite powerRZ_O. lra. }
  assert (Rabs (round_float (round_float d * 60) - round_float d * 60)
          <= powerRZ 2 (6 - 54)) as E2.
  { apply round_float_error; [lia |].
    rewrite Rabs_pos_eq by lra. rewrite pow2_IZR by lia.
    change (2 ^ 6)%Z with 64%Z. lra. }
  change (0 - 54)%Z with (Z.opp 54) in E1.
  change (6 - 54)%Z with (Z.opp 48) in E2.
  rewrite powerRZ_neg', pow2_IZR in E1, E2 by lia.
  change (2 ^ 54)%Z with 18014398509481984%Z in E1.
  change (2 ^ 48)%Z with 281474976710656%Z in E2.
  apply Rabs_le_inv in E1, E2. apply Rabs_le. lra.
Qed.

Lemma format_fixed2_minutes (m : R) :
  0 <= m <= 60 ->
  let h := round_half_even (m * 100) in
  (0 <= h <= 6000)%Z
  /\ format_fixed2 5 m
     = [48 + h / 1000; 48 + h / 100 mod 10; 46; 48 + h / 10 mod 10;
        48 + h mod 10]%Z.
Proof.
  intros Hm h.
  assert (0 <= h <= 6000)%Z as Hh.
  { split; [apply round_half_even_ge | apply round_half_even_le]; lra. }
  split; [exact Hh |].
  unfold format_fixed2. destruct (Rlt_dec m 0) as [Hn | _]; [lra |].
  rewrite Rabs_pos_eq by lra. fold h. now apply hundredths_text_5.
Qed.

Lemma format_coordinates_layout (latitude longitude : R) (symbol : pystr) :
  Rabs latitude < 100 -> Rabs longitude < 1000 ->
  let a := int (Rabs latitude) in
  let b := round_half_even (minutes latitude a * 100) in
  let c := int (Rabs longitude) in
  let d := round_half_even (minutes longitude c * 100) in
  ((0 <= a < 100)%Z /\ (0 <= b <= 6000)%Z
   /\ (0 <= c < 1000)%Z /\ (0 <= d <= 6000)%Z)
  /\ format_coordinates latitude longitude symbol
     = ([48 + a / 10; 48 + a mod 10;
         48 + b / 1000; 48 + b / 100 mod 10; 46; 48 + b / 10 mod 10;
         48 + b mod 10;
         if Rle_dec 0 latitude then 78 else 83]
        ++ symbol
        ++ [48 + c / 100; 48 + c / 10 mod 10; 48 + c mod 10;
            48 + d / 1000; 48 + d / 100 mod 10; 46; 48 + d / 10 mod 10;
            48 + d mod 10;
            if Rle_dec 0 longitude then 69 else 87])%Z.
Proof.
  intros Hlat Hlon a b c d.
  pose proof (Rabs_pos latitude) as Hlat0.
  pose proof (Rabs_pos longitude) as Hlon0.
  assert (0 <= a < 100)%Z as Ha by (apply degrees_range; lra).
  assert (0 <= c < 1000)%Z as Hc by (apply degrees_range; lra).
  destruct (format_fixed2_minutes _ (minutes_range latitude)) as [Hb Eb].
  destruct (format_fixed2_minutes _ (minutes_range longitude)) as [Hd Ed].
  fold a in Hb, Eb. fold c in Hd, Ed. fold b in Hb, Eb. fold d in Hd, Ed.
  split; [now repeat split |].
  unfold format_coordinates. fold a c.
  rewrite Eb, Ed, (format_int_2 a Ha), (format_int_3 c Hc).
  now destruct (Rle_dec 0 latitude), (Rle_dec 0 longitude).
Qed.

(** X14: for a latitude below 100 and a longitude below 1000 in absolute
    value the report has the fixed layout ddmm.mmH, the symbol, dddmm.mmH:
    two and three digits of whole degrees, then in five characters the
    minutes the code computes, [(abs(x) - deg) * 60] as floats, rounded
    to hundredths, and N or S, E or W by the sign; 17 characters besides
    the symbol.  Degrees and minutes read back give the coordinate
    within 1/12000 of a degree, up to the float rounding. *)
Theorem format_coordinates_fixed_width
        (latitude longitude : R) (symbol : pystr) :
  Rabs latitude < 100 -> Rabs longitude < 1000 ->
  let a := int (Rabs latitude) in
  let b := round_half_even (minutes latitude a * 100) in
  let c := int (Rabs longitude) in
  let d := round_half_even (minutes longitude c * 100) in
  format_coordinates latitude longitude symbol
  = ([48 + a / 10; 48 + a mod 10;
      48 + b / 1000; 48 + b / 100 mod 10; 46; 48 + b / 10 mod 10;
      48 + b mod 10;
      if Rle_dec 0 latitude then 78 else 83]
     ++ symbol
     ++ [48 + c / 100; 48 + c / 10 mod 10; 48 + c mod 10;
         48 + d / 1000; 48 + d / 100 mod 10; 46; 48 + d / 10 mod 10;
         48 + d mod 10;
         if Rle_dec 0 longitude then 69 else 87])%Z
  /\ length (format_coordinates latitude longitude symbol)
     = (17 + length symbol)%nat
  /\ (0 <= a < 100)%Z /\ (0 <= b <= 6000)%Z
  /\ (0 <= c < 1000)%Z /\ (0 <= d <= 6000)%Z
  /\ Rabs (IZR a + IZR b / 6000 - Rabs latitude)
     <= 1 / 12000 + / 1000000000000000
  /\ Rabs (IZR c + IZR d / 6000 - Rabs longitude)
     <= 1 / 12000 + / 1000000000000000.
Proof.
  intros Hlat Hlon a b c d.
  destruct (format_coordinates_layout latitude longitude symbol Hlat Hlon)
    as [(Ha & Hb & Hc & Hd) E].
  fold a b c d in Ha, Hb, Hc, Hd, E.
  split; [exact E |]. split.
  { rewrite E, !length_app. cbn [length]. lia. }
  repeat (split; [assumption |]).
  pose proof (round_half_even_close (minutes latitude a * 100)) as Eb.
  pose proof (round_half_even_close (minutes longitude c * 100)) as Ed.
  pose proof (minutes_close latitude) as Mb.
  pose proof (minutes_close longitude) as Md.
  fold a in Mb. fold c in Md. fold b in Eb. fold d in Ed.
  apply Rabs_le_inv in Eb, Ed, Mb, Md.
  split; apply Rabs_le; lra.
Qed.

Lemma format_coordinates_fixed_width_witness :
  length (format_coordinates (-33.75) 151.25 [47%Z]) = 18%nat.
Proof.
  assert (Rabs (-33.75) < 100) as Hlat
      by (rewrite Rabs_left by lra; lra).
  assert (Rabs 151.25 < 1000) as Hlon
      by (rewrite Rabs_pos_eq by lra; lra).
  exact (proj1 (proj2 (format_coordinates_fixed_width
                         (-33.75) 151.25 [47%Z] Hlat Hlon))).
Defined.

(** The whole degrees of a number between two integers. *)
Lemma int_between (v : R) (z : Z) :
  0 <= IZR z <= v -> v < IZR z + 1 -> int v = z.
Proof.
  intros [H0 Hlo] Hhi. unfold int.
  destruct (Rle_dec 0 v) as [_ | H]; [| lra].
  apply Zfloor_eq. lra.
Qed.

(** X15: the minutes field can read 60.00.  When the minutes the code
    computes for the latitude, [(abs(latitude) - lat_deg) * 60] as
    floats, exceed 59.995, they are written as 60.00 while the degrees
    stay as they are: the five characters after the degrees are "60.00"
    (54 48 46 48 48), which is no valid minute value. *)
Theorem format_coordinates_minutes_sixty
        (latitude longitude : R) (symbol : pystr) :
  Rabs latitude < 100 -> Rabs longitude < 1000 ->
  59.995 < minutes latitude (int (Rabs latitude)) ->
  firstn 7 (format_coordinates latitude longitude symbol)
  = [48 + int (Rabs latitude) / 10; 48 + int (Rabs latitude) mod 10;
     54; 48; 46; 48; 48]%Z.
Proof.
  intros Hlat Hlon Hmin.
  destruct (format_coordinates_layout latitude longitude symbol Hlat Hlon)
    as [_ E].
  cbn zeta in E. rewrite E. clear E.
  pose proof (minutes_range latitude) as Hm.
  assert (round_half_even (minutes latitude (int (Rabs latitude)) * 100)
          = 6000%Z) as ->.
  { apply Z.le_antisymm.
    - apply round_half_even_le. lra.
    - pose proof (round_half_even_close
                    (minutes latitude (int (Rabs latitude)) * 100)) as Hc.
      apply Rabs_le_inv in Hc.
      assert (5999 < round_half_even
                       (minutes latitude (int (Rabs latitude)) * 100))%Z
        by (apply lt_IZR; lra).
      lia. }
  reflexivity.
Qed.

(** The latitude 34 - 2 ^ -17, a float: its minutes are 59.9995. *)
Lemma format_coordinates_minutes_sixty_witness :
  firstn 7 (format_coordinates 33.99999237060546875 (-84.5) [47%Z])
  = [48 + int (Rabs 33.99999237060546875) / 10;
     48 + int (Rabs 33.99999237060546875) mod 10;
     54; 48; 46; 48; 48]%Z.
Proof.
  assert (Rabs 33.99999237060546875 = 33.99999237060546875) as Ha
      by (apply Rabs_pos_eq; lra).
  assert (int (Rabs 33.99999237060546875) = 33%Z) as Hi
      by (rewrite Ha; apply int_between; lra).
  apply (format_coordinates_minutes_sixty
           33.99999237060546875 (-84.5) [47%Z]).
  - rewrite Ha. lra.
  - rewrite Rabs_left by lra. lra.
  - pose proof (minutes_close 33.99999237060546875) as Hc.
    rewrite Hi, Ha in *. apply Rabs_le_inv in Hc. lra.
Defined.

Local Close Scope R_scope.

(** ** From the position to the file *)

Lemma play_aprs_packet (uu : Z -> list Z) (info : pystr) :
  all_ascii info = true ->
  exists packet,
    ax25_frame uu Examples.source Examples.destination Examples.path info
    = Ok packet
    /\ length packet = (65 + length info)%nat.
Proof.
  intro Hinfo.
  destruct (ax25_body_ascii uu Examples.source Examples.destination
                            Examples.path info eq_refl Hinfo)
    as (front & Hbody & Hlen & _).
  cbn zeta in Hbody. unfold ax25_frame. rewrite Hbody. cbn [bind].
  eexists. split; [reflexivity |].
  change (length Examples.path) with 2%nat in Hlen.
  rewrite !length_app, repeat_length in *.
  unfold PREAMBLE_LENGTH. cbn [length] in *. lia.
Qed.

(** X16: one press of the button runs through.  Whatever the coordinates,
    with a timestamp of ASCII characters [play_aprs] builds the frame,
    encodes it and writes the file without an error: mono, 16 bit,
    96000 Hz, 640 bytes for each of the 66 + 8 * len(packet) bits.  With
    the 7 characters of the timestamp format and coordinates in the
    fixed layout the packet has 135 bytes and the file 733440 bytes of
    frames, 3.82 seconds. *)
Theorem play_aprs_writes_file
        (uu : Z -> list Z) (latitude longitude : R) (timestamp : pystr) :
  all_ascii timestamp = true ->
  exists wav,
    play_aprs uu latitude longitude timestamp = Ok wav
    /\ nchannels wav = 1 /\ sampwidth wav = 2 /\ framerate wav = 96000
    /\ length (frames wav)
       = (640 * (66 + 8 * (110 + length timestamp
                           + length (format_coordinates latitude longitude
                                                        [47%Z]))))%nat
    /\ (length timestamp = 7%nat ->
        (Rabs latitude < 100)%R -> (Rabs longitude < 1000)%R ->
        length (frames wav) = Z.to_nat 733440).
Proof.
  intro Hts. unfold play_aprs.
  set (report := format_coordinates latitude longitude [47]).
  assert (all_ascii ([64] ++ timestamp ++ report ++ Report.comment) = true)
    as Hinfo.
  { rewrite !all_ascii_app, Hts.
    unfold report. rewrite format_coordinates_ascii_symbol.
    reflexivity. }
  destruct (play_aprs_packet uu _ Hinfo) as (packet & Hp & Hpl).
  rewrite Hp. cbn [bind].
  destruct (afsk_encode_filtered packet) as (audio & Ha & Hr & Hal).
  rewrite Ha. cbn [bind].
  destruct (sample_bytes_in_range audio Hr) as (data & Hd & Hdl).
  unfold save_to_wav. rewrite Hd. cbn [bind].
  eexists. split; [reflexivity |].
  cbn [nchannels sampwidth framerate frames].
  repeat (split; [reflexivity |]).
  assert (length data
          = (640 * (66 + 8 * (110 + length timestamp + length report)))%nat)
    as Hlen.
  { rewrite Hdl, Hal, Hpl, !length_app.
    change (length Report.comment) with 44%nat. cbn [length]. lia. }
  split; [exact Hlen |].
  intros H7 Hlat Hlon. rewrite Hlen, H7.
  destruct (format_coordinates_layout latitude longitude [47] Hlat Hlon)
    as [_ E].
  cbn zeta in E. unfold report. rewrite E, !length_app. cbn [length].
  apply Nat2Z.inj. rewrite Z2Nat.id by lia. lia.
Qed.

Lemma play_aprs_writes_file_witness :
  exists wav,
    play_aprs Examples.keep_upper 33.85 (-84.38)
              [48; 51; 49; 51; 52; 52; 122] = Ok wav
    /\ nchannels wav = 1 /\ sampwidth wav = 2 /\ framerate wav = 96000
    /\ length (frames wav)
       = (640 * (66 + 8 * (110 + 7
                           + length (format_coordinates 33.85 (-84.38)
                                                        [47%Z]))))%nat
    /\ (7%nat = 7%nat ->
        (Rabs 33.85 < 100)%R -> (Rabs (-84.38) < 1000)%R ->
        length (frames wav) = Z.to_nat 733440).
Proof.
  apply (play_aprs_writes_file Examples.keep_upper 33.85 (-84.38)
                               [48; 51; 49; 51; 52; 52; 122]).
  reflexivity.
Defined.

(** ** The loudest sample after the normalisation *)

Lemma rescale_float_inner (s : Z) :
  Z.abs s <= 654 -> Z.abs (rescale_float 655 s) <= 32766.
Proof.
  intro Hs.
  destruct (rescale_float_product 655 s) as [Hp _]; [lia | lia |].
  unfold rescale_float.
  set (v := round_float (IZR s * round_float (32767 / 655))) in *.
  apply IZR_le in Hs. rewrite abs_IZR in Hs.
  assert (Rabs (IZR s * (32767 / 655)) <= 32766)%R as Hb.
  { rewrite Rabs_mult, (Rabs_pos_eq (32767 / 655)) by lra. lra. }
  assert (Rabs v < 32767)%R as Hv.
  { replace v with ((v - IZR s * (32767 / 655)) + IZR s * (32767 / 655))%R
      by ring.
    eapply Rle_lt_trans; [apply Rabs_triang |]. lra. }
  pose proof (int_abs_le v) as Hi.
  assert (Rabs (IZR (int v)) < 32767)%R as Hlt by lra.
  rewrite <- abs_IZR in Hlt. apply lt_IZR in Hlt. lia.
Qed.

(** X17: the loudest sample does not reach full scale.  For every packet
    the normalisation step of [afsk_encode] returns a buffer whose largest
    absolute value is 32766: the loudest samples are 655 in absolute
    value, and the float product [655 * (32767 / 655)] lies just below
    32767 and is cut to 32766. *)
Theorem normalize_peak (packet : list Z) :
  exists out,
    normalize_float (fst (synthesize (generate_bitstream packet))) = Ok out
    /\ is_max_abs 32766 out.
Proof.
  destruct (bitstream_starts_zero packet) as (bits & ->).
  pose proof (synthesized_max bits) as Hmax.
  exists (map (rescale_float 655) (fst (synthesize (0 :: bits)))).
  split.
  { unfold normalize_float. now rewrite (max_abs_of_max 655 _ Hmax). }
  destruct rescale_float_peak as [Hpos Hneg].
  destruct Hmax as [(s & Hs & Habs) Hle]. split.
  - exists (rescale_float 655 s). split; [now apply in_map |].
    assert (s = 655 \/ s = -655) as [-> | ->] by lia.
    + now rewrite Hpos.
    + now rewrite Hneg.
  - intros o Ho. apply in_map_iff in Ho as (t & <- & Ht).
    specialize (Hle t Ht).
    destruct (Z_le_gt_dec (Z.abs t) 654) as [Hin | Hout].
    + now apply rescale_float_inner.
    + assert (t = 655 \/ t = -655) as [-> | ->] by lia.
      * now rewrite Hpos.
      * now rewrite Hneg.
Qed.
